(** * homelab-task-go: the taskkit workflow engine

    A shallow embedding of [pkg/taskkit]: the workflow definition with its
    dependency resolver ([GetExecutionOrder], [GetRetries], [GetHandlerName]),
    the step result model ([HasErrors], [Skip]), the handler registry and
    the local runner ([executeStep], [Run]); with them the exit status of
    the command line and the three handlers of the smoke test.

    Conventions of the embedding.
    - Go's [int] is the 64-bit two's complement integer: a [Z] together with
      [wrap], which is written out wherever the source does arithmetic.
    - Go maps are [gmap]s.  Reading a missing key yields the zero value
      ([default zero (m !! key)]); [range] over a map visits every key once, in an order the
      language leaves unspecified: that order is an explicit argument
      ([visit]) of the functions that range over a map whose order matters.
    - Loops that need not terminate take [fuel]; [None] is "out of fuel".
    - Handlers are arbitrary Go functions: they are state transformers over
      a store that holds the runner's [vars] map (which [StepInput.Vars]
      aliases) and whatever else they can reach.
    - Wall-clock readings (durations, timestamps of the engine), the
      progress lines printed on standard output and the two files the
      runner writes when a run ends (the execution result and the
      variables) are not modelled. *)

From Stdlib Require Import ZArith Lia.
From stdpp Require Import gmap strings list fin_maps relations sorting.

Local Open Scope Z_scope.

(** ** Machine integers *)

Definition min_int : Z := -9223372036854775808.
Definition max_int : Z := 9223372036854775807.

(** Two's complement wrap-around of a 64-bit [int]. *)
Definition wrap (z : Z) : Z :=
  (z + 9223372036854775808) mod 18446744073709551616 - 9223372036854775808.

(** ** Dynamic values ([any]) *)

Inductive Value :=
| VNil
| VBool (b : bool)
| VInt (z : Z)
| VStr (s : string).

(** ** The workflow definition and its resolver *)

Definition StepTemplate := string.
Definition TemplateInit : StepTemplate := "init".
Definition TemplateAction : StepTemplate := "action".
Definition TemplateFinalize : StepTemplate := "finalize".

Record WorkflowStep := {
  Name : string;
  Depends : list string;
  Template : StepTemplate;
  Params : gmap string Value;
  Retries : Z
}.

Record WorkflowDefinition := {
  wfName : string;
  Description : string;
  Platform : string;
  HandlerPrefix : string;
  Steps : list WorkflowStep;
  DefaultRetries : Z;
  TimeoutSeconds : Z
}.

(** The zero value of [WorkflowStep], what [stepMap[name]] yields for a
    missing key. *)
Definition zero_step : WorkflowStep :=
  {| Name := ""; Depends := []; Template := ""; Params := ∅; Retries := 0 |}.

(** [fmt.Sprintf("%s-%s", prefix, step.Name)] *)
Definition GetHandlerName (w : WorkflowDefinition) (step : WorkflowStep) : string :=
  if decide (HandlerPrefix w ≠ "")
  then HandlerPrefix w +:+ "-" +:+ Name step
  else Platform w +:+ "-" +:+ Name step.

Definition GetRetries (w : WorkflowDefinition) (step : WorkflowStep) : Z :=
  if 0 <? Retries step then Retries step
  else if 0 <? DefaultRetries w then DefaultRetries w
  else 0.

(** *** GetExecutionOrder *)

(** The three maps of the first loop. *)
Record Graph := {
  stepMap : gmap string WorkflowStep;
  inDegree : gmap string Z;
  dependents : gmap string (list string)
}.

Definition empty_graph : Graph :=
  {| stepMap := ∅; inDegree := ∅; dependents := ∅ |}.

(** [dependents[dep] = append(dependents[dep], name)] *)
Definition add_dependent (name : string)
    (m : gmap string (list string)) (dep : string) : gmap string (list string) :=
  <[dep := default [] (m !! dep) ++ [name]]> m.

Definition add_step (g : Graph) (step : WorkflowStep) : Graph :=
  {| stepMap := <[Name step := step]> (stepMap g);
     inDegree := <[Name step := Z.of_nat (length (Depends step))]> (inDegree g);
     dependents := foldl (add_dependent (Name step)) (dependents g) (Depends step) |}.

Definition build (steps : list WorkflowStep) : Graph :=
  foldl add_step empty_graph steps.

Inductive OrderError :=
| UnknownDependency (step dep : string)
| DependencyCycle.

(** The validation loop: the first declared dependency, in step order, that
    is not a key of [stepMap]. *)
Fixpoint validate_deps (sm : gmap string WorkflowStep) (name : string)
    (deps : list string) : option OrderError :=
  match deps with
  | [] => None
  | dep :: deps' =>
      match sm !! dep with
      | None => Some (UnknownDependency name dep)
      | Some _ => validate_deps sm name deps'
      end
  end.

Fixpoint validate (sm : gmap string WorkflowStep)
    (steps : list WorkflowStep) : option OrderError :=
  match steps with
  | [] => None
  | step :: steps' =>
      match validate_deps sm (Name step) (Depends step) with
      | Some e => Some e
      | None => validate sm steps'
      end
  end.

(** [for name, degree := range inDegree]: [visit] is the order in which the
    runtime yields the keys. *)
Definition seed_one (deg : gmap string Z) (queue : list string) (name : string)
    : list string :=
  match deg !! name with
  | Some 0 => queue ++ [name]
  | _ => queue
  end.

Definition seed (deg : gmap string Z) (visit : list string) : list string :=
  foldl (seed_one deg) [] visit.

(** One turn of the inner loop: [inDegree[dependent]--] and the test. *)
Definition relax_one (st : gmap string Z * list string) (dependent : string)
    : gmap string Z * list string :=
  let deg := <[dependent := wrap (default 0 (st.1 !! dependent) - 1)]> st.1 in
  if default 0 (deg !! dependent) =? 0 then (deg, st.2 ++ [dependent]) else (deg, st.2).

Definition relax (l : list string) (st : gmap string Z * list string)
    : gmap string Z * list string :=
  foldl relax_one st l.

(** [for len(queue) > 0 { ... }] *)
Fixpoint kahn (fuel : nat) (g : Graph) (queue : list string)
    (order : list WorkflowStep) (deg : gmap string Z)
    : option (list WorkflowStep) :=
  match fuel with
  | O => None
  | S fuel' =>
      match queue with
      | [] => Some order
      | name :: rest =>
          let order' := order ++ [default zero_step (stepMap g !! name)] in
          let st := relax (default [] (dependents g !! name)) (deg, rest) in
          kahn fuel' g st.2 order' st.1
      end
  end.

Definition GetExecutionOrder (fuel : nat) (visit : list string)
    (w : WorkflowDefinition) : option (OrderError + list WorkflowStep) :=
  let g := build (Steps w) in
  match validate (stepMap g) (Steps w) with
  | Some e => Some (inl e)
  | None =>
      match kahn fuel g (seed (inDegree g) visit) [] (inDegree g) with
      | None => None
      | Some order =>
          if decide (length order ≠ length (Steps w))
          then Some (inl DependencyCycle)
          else Some (inr order)
      end
  end.

(** The keys of [inDegree] are the step names; a legal iteration order
    lists each of them once. *)
Definition valid_visit (w : WorkflowDefinition) (visit : list string) : Prop :=
  NoDup visit ∧ ∀ n, n ∈ visit ↔ n ∈ Name <$> Steps w.

(** ** The step model (models.go) *)

Definition Severity := string.
Definition SeverityInfo : Severity := "INFO".
Definition SeverityWarning : Severity := "WARNING".
Definition SeverityError : Severity := "ERROR".
Definition SeverityDebug : Severity := "DEBUG".

Record Message := {
  msgSeverity : Severity;
  Text : string;
  System : string;
  Timestamp : Z
}.

(** [Vars] is a reference to the runner's [vars] map; [inVars] holds the
    contents that reference shows when the handler is entered. *)
Record StepInput := {
  StepName : string;
  TaskID : string;
  WorkflowName : string;
  Attempt : Z;
  TotalRetries : Z;
  inParams : gmap string Value;
  inVars : gmap string Value;
  WorkflowResult : string
}.

Record StepResult := {
  Messages : list Message;
  ContextUpdates : gmap string Value;
  Output : gmap string Value;
  FlowControl : gmap string Value
}.

(** The zero value of [StepResult] ([var stepResult StepResult]). *)
Definition zero_result : StepResult :=
  {| Messages := []; ContextUpdates := ∅; Output := ∅; FlowControl := ∅ |}.

Definition NewStepResult : StepResult := zero_result.

Fixpoint has_error (ms : list Message) : bool :=
  match ms with
  | [] => false
  | m :: ms' => if String.eqb (msgSeverity m) SeverityError then true else has_error ms'
  end.

Definition HasErrors (r : StepResult) : bool := has_error (Messages r).

Definition AddMessage (r : StepResult) (severity : Severity) (text system : string)
    (now : Z) : StepResult :=
  {| Messages := Messages r ++
       [{| msgSeverity := severity; Text := text; System := system; Timestamp := now |}];
     ContextUpdates := ContextUpdates r; Output := Output r;
     FlowControl := FlowControl r |}.

Definition AddError (r : StepResult) (text system : string) (now : Z) : StepResult :=
  AddMessage r SeverityError text system now.

Definition SetVar (r : StepResult) (key : string) (value : Value) : StepResult :=
  {| Messages := Messages r; ContextUpdates := <[key := value]> (ContextUpdates r);
     Output := Output r; FlowControl := FlowControl r |}.

Definition Skip (r : StepResult) (reason : string) : StepResult :=
  {| Messages := Messages r; ContextUpdates := ContextUpdates r; Output := Output r;
     FlowControl := <["skip_reason" := VStr reason]>
                      (<["skip" := VBool true]> (FlowControl r)) |}.

Record StepExec := {
  seName : string;
  seHandler : string;
  Status : string;
  seMessages : list Message;
  seOutput : gmap string Value;
  Error : string
}.

(** [ErrorMessage] wraps the resolver's error in a formatted text; the
    error is kept structured here. *)
Record ExecutionResult := {
  Result : string;
  erTaskID : string;
  erWorkflowName : string;
  erSteps : list StepExec;
  FinalVars : gmap string Value;
  ErrorMessage : option OrderError
}.

Record Deps := { Workdir : string }.

(** ** The registry (registry.go) and the local runner *)

(** [for k, v := range src { dst[k] = v }] *)
Definition assign_all (src dst : gmap string Value) : gmap string Value :=
  map_fold (λ k v acc, <[k := v]> acc) dst src.

Section Runner.

(** Everything a handler can reach besides the runner's [vars]. *)
Context {World : Type}.

Record Store := { vars : gmap string Value; world : World }.

Definition StepHandler : Type := StepInput → Deps → Store → StepResult * Store.

Definition Get (registry : gmap string StepHandler) (name : string)
    : option StepHandler := registry !! name.

Record LocalRunnerConfig := { cfgTaskID : string; cfgWorkdir : string }.

(** The runner without its [vars] field, which lives in the [Store]. *)
Record LocalRunner := {
  config : LocalRunnerConfig;
  workflow : WorkflowDefinition;
  params : gmap string Value;
  deps : Deps
}.

Definition mergeParams (r : LocalRunner) (stepParams : gmap string Value)
    : gmap string Value :=
  assign_all stepParams (assign_all (params r) ∅).

(** One handler invocation, as the engine saw it: the input passed, the
    result returned and the store the handler left. *)
Record Call := { call_input : StepInput; call_result : StepResult; call_store : Store }.

Definition set_Attempt (input : StepInput) (attempt : Z) (σ : Store) : StepInput :=
  {| StepName := StepName input; TaskID := TaskID input;
     WorkflowName := WorkflowName input; Attempt := attempt;
     TotalRetries := TotalRetries input; inParams := inParams input;
     inVars := vars σ; WorkflowResult := WorkflowResult input |}.

Definition set_Status (exec : StepExec) (status error : string) : StepExec :=
  {| seName := seName exec; seHandler := seHandler exec; Status := status;
     seMessages := seMessages exec; seOutput := seOutput exec; Error := error |}.

(** [stepResult.FlowControl["skip"].(bool)]: present, a bool, and true. *)
Definition skip_set (res : StepResult) : bool :=
  match FlowControl res !! "skip" with
  | Some (VBool true) => true
  | _ => false
  end.

(** [stepResult.FlowControl["skip_reason"].(string)], else the empty text. *)
Definition skip_reason (res : StepResult) : string :=
  match FlowControl res !! "skip_reason" with
  | Some (VStr reason) => reason
  | _ => ""
  end.

(** [for attempt := 1; attempt <= maxAttempts; attempt++ { ... }], entered
    at [attempt]; [calls] is the ghost log of handler invocations. *)
Fixpoint retry_loop (fuel : nat) (handler : StepHandler) (d : Deps)
    (maxAttempts attempt : Z) (input : StepInput) (exec : StepExec)
    (stepResult : StepResult) (σ : Store) (calls : list Call)
    : option (StepExec * StepResult * Store * list Call) :=
  match fuel with
  | O => None
  | S fuel' =>
      if attempt <=? maxAttempts then
        let input := set_Attempt input attempt σ in
        let out := handler input d σ in
        let stepResult := out.1 in
        let σ := out.2 in
        let calls := calls ++
          [{| call_input := input; call_result := stepResult; call_store := σ |}] in
        if skip_set stepResult then
          Some (set_Status exec "Skipped" (skip_reason stepResult), stepResult, σ, calls)
        else if negb (HasErrors stepResult) then
          Some (set_Status exec "Succeeded" (Error exec), stepResult, σ, calls)
        else
          let exec := if attempt =? maxAttempts
                      then set_Status exec "Failed" (Error exec) else exec in
          retry_loop fuel' handler d maxAttempts (wrap (attempt + 1)) input exec
            stepResult σ calls
      else Some (exec, stepResult, σ, calls)
  end.

(** [maxAttempts := r.workflow.GetRetries(step) + 1] *)
Definition maxAttempts (w : WorkflowDefinition) (step : WorkflowStep) : Z :=
  wrap (GetRetries w step + 1).

(** The record and the input [executeStep] starts from. *)
Definition new_exec (w : WorkflowDefinition) (step : WorkflowStep) : StepExec :=
  {| seName := Name step; seHandler := GetHandlerName w step; Status := "";
     seMessages := []; seOutput := ∅; Error := "" |}.

Definition new_input (r : LocalRunner) (step : WorkflowStep) (σ : Store) : StepInput :=
  {| StepName := Name step; TaskID := cfgTaskID (config r);
     WorkflowName := wfName (workflow r); Attempt := 1;
     TotalRetries := GetRetries (workflow r) step;
     inParams := mergeParams r (Params step);
     inVars := vars σ; WorkflowResult := "" |}.

(** After the loop: record the last result and apply its context updates. *)
Definition record_result (exec : StepExec) (stepResult : StepResult) : StepExec :=
  {| seName := seName exec; seHandler := seHandler exec; Status := Status exec;
     seMessages := Messages stepResult; seOutput := Output stepResult;
     Error := Error exec |}.

Definition apply_updates (stepResult : StepResult) (σ : Store) : Store :=
  {| vars := assign_all (ContextUpdates stepResult) (vars σ); world := world σ |}.

Definition executeStep (fuel : nat) (registry : gmap string StepHandler)
    (r : LocalRunner) (step : WorkflowStep) (σ : Store)
    : option (StepExec * Store * list Call) :=
  let handlerName := GetHandlerName (workflow r) step in
  let exec := new_exec (workflow r) step in
  match Get registry handlerName with
  | None =>
      Some (set_Status exec "Failed" ("handler not found: " +:+ handlerName), σ, [])
  | Some handler =>
      let input := new_input r step σ in
      match retry_loop fuel handler (deps r) (maxAttempts (workflow r) step) 1
              input exec zero_result σ [] with
      | None => None
      | Some (exec, stepResult, σ, calls) =>
          Some (record_result exec stepResult, apply_updates stepResult σ, calls)
      end
  end.

Definition is_finalize (s : WorkflowStep) : bool :=
  String.eqb (Template s) TemplateFinalize.

(** The loop of [Run] over the not yet executed [todo]; [steps] is the whole
    resolved order, which the finalize scan walks. *)
Fixpoint run_steps (fuel : nat) (registry : gmap string StepHandler)
    (r : LocalRunner) (steps todo : list WorkflowStep) (acc : list StepExec)
    (workflowFailed : bool) (σ : Store) : option (list StepExec * bool * Store) :=
  match todo with
  | [] => Some (acc, workflowFailed, σ)
  | step :: todo' =>
      match executeStep fuel registry r step σ with
      | None => None
      | Some (stepExec, σ, _) =>
          let acc := acc ++ [stepExec] in
          if String.eqb (Status stepExec) "Failed" then
            if negb (is_finalize step) && negb (existsb is_finalize steps)
            then Some (acc, true, σ)
            else run_steps fuel registry r steps todo' acc true σ
          else run_steps fuel registry r steps todo' acc workflowFailed σ
      end
  end.

Definition Run (fuel : nat) (visit : list string)
    (registry : gmap string StepHandler) (r : LocalRunner) (σ : Store)
    : option (ExecutionResult * Store) :=
  match GetExecutionOrder fuel visit (workflow r) with
  | None => None
  | Some (inl e) =>
      Some ({| Result := "Error"; erTaskID := cfgTaskID (config r);
               erWorkflowName := wfName (workflow r); erSteps := [];
               FinalVars := ∅; ErrorMessage := Some e |}, σ)
  | Some (inr steps) =>
      match run_steps fuel registry r steps steps [] false σ with
      | None => None
      | Some (recs, failed, σ') =>
          Some ({| Result := if failed then "Failed" else "Succeeded";
                   erTaskID := cfgTaskID (config r);
                   erWorkflowName := wfName (workflow r); erSteps := recs;
                   FinalVars := vars σ'; ErrorMessage := None |}, σ')
      end
  end.

(** *** The attempts of one step, as a relation

    [attempts h d M a input exec res σ calls out]: entered at attempt [a]
    with the loop variables [input], [exec], [res] and the store [σ], the
    retry loop makes the invocations [calls] and leaves [out]. *)

Definition retried (c : Call) : Prop :=
  skip_set (call_result c) = false ∧ HasErrors (call_result c) = true.

Definition invoked (handler : StepHandler) (d : Deps) (a : Z)
    (input : StepInput) (σ : Store) (c : Call) : Prop :=
  call_input c = set_Attempt input a σ ∧
  handler (call_input c) d σ = (call_result c, call_store c).

Inductive loop_exit (M : Z) (exec : StepExec) (c : Call) : StepExec → Prop :=
| exit_skipped :
    skip_set (call_result c) = true →
    loop_exit M exec c (set_Status exec "Skipped" (skip_reason (call_result c)))
| exit_succeeded :
    skip_set (call_result c) = false → HasErrors (call_result c) = false →
    loop_exit M exec c (set_Status exec "Succeeded" (Error exec))
| exit_failed :
    retried c → Attempt (call_input c) = M →
    loop_exit M exec c (set_Status exec "Failed" (Error exec)).

Inductive attempts (handler : StepHandler) (d : Deps) (M : Z) :
    Z → StepInput → StepExec → StepResult → Store →
    list Call → StepExec * StepResult * Store → Prop :=
| attempts_none a input exec res σ :
    M < a → attempts handler d M a input exec res σ [] (exec, res, σ)
| attempts_last a input exec res σ c exec' :
    a ≤ M → invoked handler d a input σ c → loop_exit M exec c exec' →
    attempts handler d M a input exec res σ [c] (exec', call_result c, call_store c)
| attempts_retry a input exec res σ c calls out :
    a < M → invoked handler d a input σ c → retried c →
    attempts handler d M (a + 1) (call_input c) exec (call_result c)
      (call_store c) calls out →
    attempts handler d M a input exec res σ (c :: calls) out.

End Runner.

Arguments Store : clear implicits.
Arguments StepHandler : clear implicits.
Arguments Call : clear implicits.

(** ** The rest of the package *)

(** *** Step results and inputs *)

Definition AddInfo (r : StepResult) (text system : string) (now : Z) : StepResult :=
  AddMessage r SeverityInfo text system now.

Definition AddWarning (r : StepResult) (text system : string) (now : Z) : StepResult :=
  AddMessage r SeverityWarning text system now.

Definition AddDebug (r : StepResult) (text system : string) (now : Z) : StepResult :=
  AddMessage r SeverityDebug text system now.

Definition SetOutput (r : StepResult) (key : string) (value : Value) : StepResult :=
  {| Messages := Messages r; ContextUpdates := ContextUpdates r;
     Output := <[key := value]> (Output r); FlowControl := FlowControl r |}.

(** [s.Params[key]]: the nil value when the map is nil or lacks the key. *)
Definition GetParam (s : StepInput) (key : string) : Value :=
  default VNil (inParams s !! key).

Definition GetParamString (s : StepInput) (key : string) : string :=
  match GetParam s key with
  | VStr str => str
  | _ => ""
  end.

Definition GetVar (s : StepInput) (key : string) : Value :=
  default VNil (inVars s !! key).







(** *** Invocation logs

    [chained handler d input σ calls]: the log [calls] is what invoking
    [handler] again and again yields when the first invocation starts from
    the store [σ] and each later one from the store its predecessor left,
    the input being [input] but for the attempt number and the view of the
    context. *)
Fixpoint chained {World} (handler : StepHandler World) (d : Deps)
    (input : StepInput) (σ : Store World) (calls : list (Call World)) : Prop :=
  match calls with
  | [] => True
  | c :: rest =>
      (∃ a, call_input c = set_Attempt input a σ) ∧
      handler (call_input c) d σ = (call_result c, call_store c) ∧
      chained handler d input (call_store c) rest
  end.

(** *** The registry *)

Section Registry.

Context {World : Type}.

(** [Register]: [None] stands for the panic on a name already bound. *)
Definition Register (registry : gmap string (StepHandler World)) (name : string)
    (handler : StepHandler World) : option (gmap string (StepHandler World)) :=
  match registry !! name with
  | Some _ => None
  | None => Some (<[name := handler]> registry)
  end.

(** [MustGet]: [None] stands for the panic on a name not bound. *)
Definition MustGet (registry : gmap string (StepHandler World)) (name : string)
    : option (StepHandler World) :=
  match Get registry name with
  | Some handler => Some handler
  | None => None
  end.

Definition HandlerCount (registry : gmap string (StepHandler World)) : nat :=
  size registry.

(** The [init] functions of the step packages, run one after the other. *)
Definition register_all (registry : gmap string (StepHandler World))
    (l : list (string * StepHandler World))
    : option (gmap string (StepHandler World)) :=
  foldl (λ acc p, match acc with
                  | Some reg => Register reg p.1 p.2
                  | None => None
                  end) (Some registry) l.

(** The keys of [registry] in an order [range] may yield them. *)
Definition valid_range (registry : gmap string (StepHandler World))
    (visit : list string) : Prop :=
  NoDup visit ∧ ∀ n, n ∈ visit ↔ is_Some (registry !! n).

End Registry.

(** [ListHandlers]: the names collected in the order [visit] of the map
    range, then [sort.Strings], which returns them in increasing byte-wise
    order. *)
Definition ListHandlers (visit : list string) : list string :=
  merge_sort String.le (foldl (λ names name, names ++ [name]) [] visit).

(** *** The command line: the exit status of [workflow run] *)

Definition exit_status (result : string) : Z :=
  if String.eqb result "Succeeded" then 0
  else if String.eqb result "Failed" then 1
  else 2.

(** *** The report of the smoke test and the readers of its variables *)

Record SmokeTestReport := {
  repTestName : string;
  repTaskID : string;
  repStartTime : string;
  repEndTime : string;
  repChecksPassed : bool;
  repGoVersion : string;
  repStatus : string;
  repDetails : gmap string Value
}.

Definition set_repStatus (report : SmokeTestReport) (status : string)
    : SmokeTestReport :=
  {| repTestName := repTestName report; repTaskID := repTaskID report;
     repStartTime := repStartTime report; repEndTime := repEndTime report;
     repChecksPassed := repChecksPassed report; repGoVersion := repGoVersion report;
     repStatus := status; repDetails := repDetails report |}.

(** The variable [key] when it is there and a string, else [defaultVal]. *)
Definition getStringVar (vars : gmap string Value) (key defaultVal : string)
    : string :=
  match vars !! key with
  | Some (VStr s) => s
  | _ => defaultVal
  end.

Definition getBoolVar (vars : gmap string Value) (key : string)
    (defaultVal : bool) : bool :=
  match vars !! key with
  | Some (VBool b) => b
  | _ => defaultVal
  end.

(** *** The init handler of the smoke test

    The clock and the log are part of the world: [time_Now] reads the clock
    and moves on, [format_RFC3339] is [Time.Format(time.RFC3339)], and
    [Logger d] is the [Logger] field of the dependencies [d], which writes
    a line. *)

Section SmokeTest.

Context {World : Type}.
Variable time_Now : World → Z * World.
Variable format_RFC3339 : Z → string.
Variable Logger : Deps → string → World → World.

Definition HandleInit : StepHandler World := λ input d σ,
  let result := NewStepResult in
  let logged := Logger d "Starting smoke-test-init" (world σ) in
  let testName := GetParamString input "test_name" in
  let testName := if String.eqb testName "" then "default-smoke-test" else testName in
  let result := SetVar result "test_name" (VStr testName) in
  let t0 := time_Now logged in
  let result := SetVar result "start_time" (VStr (format_RFC3339 t0.1)) in
  let result := SetVar result "initialized" (VBool true) in
  let t1 := time_Now t0.2 in
  let result := AddInfo result ("Smoke test initialized: " +:+ testName)
                  "smoke-test" t1.1 in
  let t2 := time_Now t1.2 in
  let result := AddInfo result ("Task ID: " +:+ TaskID input) "smoke-test" t2.1 in
  let t3 := time_Now t2.2 in
  let result := AddInfo result ("Workflow: " +:+ WorkflowName input)
                  "smoke-test" t3.1 in
  (result, {| vars := vars σ; world := t3.2 |}).

(** *** The check and finalize handlers of the smoke test

    What the handlers ask of their environment: the constants of package
    [runtime]; [os_Stat_IsDir path], true when [os.Stat] succeeds and finds
    a directory; [os_Hostname], the host name unless the call fails;
    [filepath_Join]; [json_MarshalIndent], the encoded report unless the
    encoder fails; [os_WriteFile path data], the error text when the write
    fails.  [any_map] and [any_report] box a map and a report as the [any]
    stored in an output; the engine never looks inside an output. *)

Variable runtime_Version runtime_GOOS runtime_GOARCH : string.
Variable os_Stat_IsDir : string → World → bool * World.
Variable os_Hostname : World → option string * World.
Variable filepath_Join : string → string → string.
Variable json_MarshalIndent : SmokeTestReport → option string.
Variable os_WriteFile : string → string → World → option string * World.
Variable any_map : gmap string Value → Value.
Variable any_report : SmokeTestReport → Value.

(** [result.AddInfo(text, system)] and its like: the time stamp of the
    message is a reading of the clock. *)
Definition timed (add : StepResult → string → string → Z → StepResult)
    (st : StepResult * World) (text system : string) : StepResult * World :=
  let t := time_Now st.2 in
  (add st.1 text system t.1, t.2).

Definition HandleCheck : StepHandler World := λ input d σ,
  let result := NewStepResult in
  let logged := Logger d "Running smoke-test-check" (world σ) in
  let testName := match GetVar input "test_name" with
                  | VStr s => s
                  | _ => "unknown"
                  end in
  let st := timed AddInfo (result, logged)
              ("Running checks for: " +:+ testName) "smoke-test" in
  let st := timed AddInfo st ("Go version: " +:+ runtime_Version) "smoke-test" in
  let st := timed AddInfo st
              ("GOOS: " +:+ runtime_GOOS +:+ ", GOARCH: " +:+ runtime_GOARCH)
              "smoke-test" in
  let st := if String.eqb (Workdir d) "" then st
            else
              let found := os_Stat_IsDir (Workdir d) st.2 in
              if found.1
              then timed AddInfo (st.1, found.2)
                     ("Workdir exists: " +:+ Workdir d) "smoke-test"
              else timed AddWarning (st.1, found.2)
                     ("Workdir issue: " +:+ Workdir d) "smoke-test" in
  let host := os_Hostname st.2 in
  let st := match host.1 with
            | Some hostname =>
                timed AddInfo (st.1, host.2) ("Hostname: " +:+ hostname) "smoke-test"
            | None => (st.1, host.2)
            end in
  let result := SetVar st.1 "checks_passed" (VBool true) in
  let result := SetVar result "go_version" (VStr runtime_Version) in
  let result := SetOutput result "runtime"
                  (any_map (<["goarch" := VStr runtime_GOARCH]>
                             (<["goos" := VStr runtime_GOOS]>
                               {["go_version" := VStr runtime_Version]}))) in
  (result, {| vars := vars σ; world := st.2 |}).

Definition HandleFinalize : StepHandler World := λ input d σ,
  let result := NewStepResult in
  let logged := Logger d "Running smoke-test-finalize" (world σ) in
  let testName := getStringVar (inVars input) "test_name" "unknown" in
  let startTime := getStringVar (inVars input) "start_time" "" in
  let checksPassed := getBoolVar (inVars input) "checks_passed" false in
  let goVersion := getStringVar (inVars input) "go_version" "" in
  let now := time_Now logged in
  let report :=
    {| repTestName := testName; repTaskID := TaskID input;
       repStartTime := startTime; repEndTime := format_RFC3339 now.1;
       repChecksPassed := checksPassed; repGoVersion := goVersion;
       repStatus := "passed";
       repDetails :=
         <["initialized" := VBool (getBoolVar (inVars input) "initialized" false)]>
           {["workflow" := VStr (WorkflowName input)]} |} in
  let report := if negb checksPassed then set_repStatus report "failed" else report in
  let st := if negb checksPassed
            then timed AddError (result, now.2) "Smoke test checks failed" "smoke-test"
            else timed AddInfo (result, now.2) "All smoke test checks passed"
                   "smoke-test" in
  let st := if String.eqb (Workdir d) "" then st
            else
              let reportPath := filepath_Join (Workdir d) "smoke-test-report.json" in
              match json_MarshalIndent report with
              | Some data =>
                  let written := os_WriteFile reportPath data st.2 in
                  match written.1 with
                  | Some err =>
                      timed AddWarning (st.1, written.2)
                        ("Failed to write report: " +:+ err) "smoke-test"
                  | None =>
                      timed AddInfo (st.1, written.2)
                        ("Report written to: " +:+ reportPath) "smoke-test"
                  end
              | None => st
              end in
  let result := SetVar st.1 "final_status" (VStr (repStatus report)) in
  let result := SetOutput result "report" (any_report report) in
  (result, {| vars := vars σ; world := st.2 |}).

End SmokeTest.

(** The dependency-free step names. *)
Definition root_names (w : WorkflowDefinition) : list string :=
  Name <$> filter (λ s, Depends s = []) (Steps w).

(** ** Vocabulary of the properties *)

(** The declared dependency entries, as (dependency, dependent) pairs in
    declaration order. *)
Definition edges (steps : list WorkflowStep) : list (string * string) :=
  flat_map (λ s, (λ d, (d, Name s)) <$> Depends s) steps.

(** [depends_on steps n d]: a step named [n] declares the dependency [d]. *)
Definition depends_on (steps : list WorkflowStep) (n d : string) : Prop :=
  ∃ s, s ∈ steps ∧ Name s = n ∧ d ∈ Depends s.

Definition acyclic (steps : list WorkflowStep) : Prop :=
  ∀ n, ¬ tc (depends_on steps) n n.

Definition deps_exist (steps : list WorkflowStep) : Prop :=
  ∀ s d, s ∈ steps → d ∈ Depends s → d ∈ Name <$> steps.

(** Every declared dependency of a step sits at an earlier index. *)
Definition topological (order : list WorkflowStep) : Prop :=
  ∀ i s d, order !! i = Some s → d ∈ Depends s →
    ∃ j t, (j < i)%nat ∧ order !! j = Some t ∧ Name t = d.

(** A slice length is an [int]: so is the number of dependency entries of a
    workflow held in memory. *)
Definition int_sized (steps : list WorkflowStep) : Prop :=
  Z.of_nat (length (edges steps)) ≤ max_int.

(** Number of entries of [l] equal to [n]. *)
Definition occ (n : string) (l : list string) : nat :=
  length (filter (λ x, x = n) l).

(** Number of dependency entries of steps named [n] that name a member
    of [P]. *)
Definition got (E : list (string * string)) (n : string) (P : list string) : nat :=
  length (filter (λ e, e.2 = n ∧ e.1 ∈ P) E).

(** The in-degree the first loop records for [n]. *)
Definition base (steps : list WorkflowStep) (n : string) : Z :=
  default 0 (inDegree (build steps) !! n).

(** Invariant of Kahn's loops.  [pq] lists the names popped so far followed
    by the queue; [cnt n] is the number of decrements applied to [n]. *)
Record kahn_inv (steps : list WorkflowStep) (pq : list string)
    (deg : gmap string Z) (cnt : string → nat) : Prop := {
  ki_nodup : NoDup pq;
  ki_names : ∀ n, n ∈ pq → n ∈ Name <$> steps;
  ki_deg : ∀ n, n ∈ Name <$> steps →
    default 0 (deg !! n) = base steps n - Z.of_nat (cnt n);
  ki_zero : ∀ n, n ∈ Name <$> steps → n ∈ pq ↔ default 0 (deg !! n) ≤ 0;
  ki_ready : ∀ i n, pq !! i = Some n →
    base steps n ≤ Z.of_nat (got (edges steps) n (take i pq))
}.

(** What the loop maintains about [order]: its entries are the [stepMap]
    values of their names. *)
Definition order_ok (steps order : list WorkflowStep) : Prop :=
  Forall (λ s, stepMap (build steps) !! Name s = Some s) order.

(** The names of a resolved order. *)
Definition order_names (res : option (OrderError + list WorkflowStep))
    : option (OrderError + list string) :=
  match res with
  | Some (inr order) => Some (inr (Name <$> order))
  | Some (inl e) => Some (inl e)
  | None => None
  end.

(** ** Sample workflows and handlers *)

Definition sample_step (name : string) (depends : list string)
    (template : StepTemplate) (retries : Z) : WorkflowStep :=
  {| Name := name; Depends := depends; Template := template; Params := ∅;
     Retries := retries |}.

Definition sample_wf (steps : list WorkflowStep) : WorkflowDefinition :=
  {| wfName := "smoke-test"; Description := ""; Platform := "smoke-test";
     HandlerPrefix := ""; Steps := steps; DefaultRetries := 0;
     TimeoutSeconds := 0 |}.

(** The smoke test: init, then check, then finalize. *)
Definition wf_smoke : WorkflowDefinition :=
  sample_wf [sample_step "finalize" ["check"; "init"] TemplateFinalize 0;
             sample_step "init" [] TemplateInit 0;
             sample_step "check" ["init"] TemplateAction 2].

(** Two steps with one name. *)
Definition wf_twins : WorkflowDefinition :=
  sample_wf [sample_step "a" [] "" 0; sample_step "a" [] "" 0].

(** A step that depends on itself and on a step that does not exist. *)
Definition wf_self_ghost : WorkflowDefinition :=
  sample_wf [sample_step "a" ["a"; "ghost"] "" 0].

(** A two-step cycle. *)
Definition wf_loop : WorkflowDefinition :=
  sample_wf [sample_step "a" ["b"] "" 0; sample_step "b" ["a"] "" 0].

(** Two independent steps. *)
Definition wf_pair : WorkflowDefinition :=
  sample_wf [sample_step "a" [] "" 0; sample_step "b" [] "" 0].

(** Handlers over a world that counts the invocations made. *)
Definition count_call (σ : Store nat) : Store nat :=
  {| vars := vars σ; world := S (world σ) |}.

Definition handle_ok : StepHandler nat := λ input d σ,
  (SetVar NewStepResult "last_ok" (VStr (StepName input)), count_call σ).

(** Reports an error on every attempt and asks for a context update. *)
Definition handle_failing : StepHandler nat := λ input d σ,
  (AddError (SetVar NewStepResult "tries" (VInt (Attempt input))) "boom" "test" 0,
   count_call σ).

(** Reports an error on attempts 1 and 2, succeeds from attempt 3 on. *)
Definition handle_flaky : StepHandler nat := λ input d σ,
  (if Attempt input <? 3
   then AddError (SetVar NewStepResult "tries" (VInt (Attempt input))) "boom" "test" 0
   else SetVar NewStepResult "checked" (VBool true),
   count_call σ).

Definition handle_skip : StepHandler nat := λ input d σ,
  (Skip NewStepResult "nothing to do", count_call σ).

(** Reports an error and asks to be skipped. *)
Definition handle_error_skip : StepHandler nat := λ input d σ,
  (Skip (AddError NewStepResult "boom" "test" 0) "giving up", count_call σ).

Definition sample_registry : gmap string (StepHandler nat) :=
  list_to_map [("smoke-test-init", handle_ok);
               ("smoke-test-check", handle_flaky);
               ("smoke-test-finalize", handle_ok);
               ("smoke-test-broken", handle_failing);
               ("smoke-test-optional", handle_skip);
               ("smoke-test-confused", handle_error_skip)].

Definition sample_runner (w : WorkflowDefinition) : LocalRunner :=
  {| config := {| cfgTaskID := "task-1"; cfgWorkdir := "." |}; workflow := w;
     params := ∅; deps := {| Workdir := "." |} |}.

Definition empty_store : Store nat := {| vars := ∅; world := 0%nat |}.

Definition step_check : WorkflowStep := sample_step "check" ["init"] TemplateAction 2.
Definition step_broken : WorkflowStep := sample_step "broken" [] TemplateAction 2.
Definition step_confused : WorkflowStep := sample_step "confused" [] TemplateAction 2.
Definition step_missing : WorkflowStep := sample_step "missing" [] TemplateAction 1.

(** The largest retry count a workflow file can carry. *)
Definition step_max_retries : WorkflowStep :=
  sample_step "init" [] TemplateInit 9223372036854775807.

Definition wf_max_retries : WorkflowDefinition := sample_wf [step_max_retries].

(** The example of the specification: A, B after A, a third step after B;
    B always fails and has no retries.  The third step carries the finalize
    tag in [wf_report] and no tag in [wf_plain]. *)
Definition wf_report : WorkflowDefinition :=
  sample_wf [sample_step "init" [] TemplateInit 0;
             sample_step "broken" ["init"] TemplateAction 0;
             sample_step "finalize" ["broken"] TemplateFinalize 0].

Definition wf_plain : WorkflowDefinition :=
  sample_wf [sample_step "init" [] TemplateInit 0;
             sample_step "broken" ["init"] TemplateAction 0;
             sample_step "finalize" ["broken"] TemplateAction 0].

(** Name and status of the records of a run, with its result. *)
Definition run_summary (out : option (ExecutionResult * Store nat))
    : option (string * list (string * string)) :=
  match out with
  | Some (res, _) => Some (Result res, (λ e, (seName e, Status e)) <$> erSteps res)
  | None => None
  end.

(** A clock that ticks at every reading, and the logger of a runner that
    is not verbose, which prints nothing. *)
Definition clock_Now (w : nat) : Z * nat := (Z.of_nat w, S w).
Definition clock_format (t : Z) : string :=
  if t =? 0 then "1970-01-01T00:00:00Z" else "1970-01-01T00:00:01Z".
Definition quiet_Logger (d : Deps) (line : string) (w : nat) : nat := w.

Definition init_registry : gmap string (StepHandler nat) :=
  {["smoke-test-init" := HandleInit clock_Now clock_format quiet_Logger]}.

(** An environment for the other two handlers: the working directory is
    there, the host name is not known, the report cannot be written. *)
Definition stat_found (path : string) (w : nat) : bool * nat := (true, w).
Definition hostname_fails (w : nat) : option string * nat := (None, w).
Definition join_slash (dir file : string) : string := dir +:+ "/" +:+ file.
Definition marshal_braces (report : SmokeTestReport) : option string := Some "{}".
Definition write_denied (path data : string) (w : nat) : option string * nat :=
  (Some "permission denied", w).
Definition boxed_map (m : gmap string Value) : Value := VStr "map".
Definition boxed_report (report : SmokeTestReport) : Value :=
  VStr (repStatus report).

Definition sample_check : StepHandler nat :=
  HandleCheck clock_Now quiet_Logger "go1.22" "linux" "amd64" stat_found
    hostname_fails boxed_map.

Definition sample_finalize : StepHandler nat :=
  HandleFinalize clock_Now clock_format quiet_Logger join_slash marshal_braces
    write_denied boxed_report.

Definition smoke_registry : gmap string (StepHandler nat) :=
  list_to_map [("smoke-test-init", HandleInit clock_Now clock_format quiet_Logger);
               ("smoke-test-check", sample_check);
               ("smoke-test-finalize", sample_finalize)].

(** The smoke test as a chain. *)
Definition wf_smoke_chain : WorkflowDefinition :=
  sample_wf [sample_step "init" [] TemplateInit 0;
             sample_step "check" ["init"] TemplateAction 2;
             sample_step "finalize" ["check"] TemplateFinalize 0].

(** A runner with run-level parameters, and a step with its own. *)
Definition params_runner : LocalRunner :=
  {| config := {| cfgTaskID := "task-7"; cfgWorkdir := "." |}; workflow := wf_smoke;
     params := <["region" := VStr "eu"]> {["test_name" := VStr "global"]};
     deps := {| Workdir := "." |} |}.


(** * Proofs *)

(** Closes a decidable goal about concrete data by evaluating its decision
    procedure. *)
Ltac by_compute := apply (bool_decide_unpack _); vm_compute; exact I.

(** ** Machine integers *)

Lemma wrap_id z : min_int ≤ z ≤ max_int → wrap z = z.
Proof.
  unfold wrap, min_int, max_int. intros H.
  rewrite Z.mod_small; lia.
Qed.

Lemma wrap_overflow : wrap (max_int + 1) = min_int.
Proof. reflexivity. Qed.

Lemma GetRetries_nonneg w step : 0 ≤ GetRetries w step.
Proof.
  unfold GetRetries.
  destruct (0 <? Retries step) eqn:E1; [apply Z.ltb_lt in E1; lia|].
  destruct (0 <? DefaultRetries w) eqn:E2; [apply Z.ltb_lt in E2; lia|lia].
Qed.

(** ** The maps built by the first loop *)

Lemma build_snoc l s : build (l ++ [s]) = add_step (build l) s.
Proof. unfold build. by rewrite foldl_snoc. Qed.

Lemma stepMap_lookup steps n s :
  stepMap (build steps) !! n = Some s → s ∈ steps ∧ Name s = n.
Proof.
  induction steps as [|x l IH] using rev_ind; [done|].
  rewrite build_snoc. simpl. intros H.
  destruct (decide (Name x = n)) as [<-|Hne].
  - rewrite lookup_insert_eq in H. inversion H; subst. split; [|done].
    apply elem_of_app. right. by apply list_elem_of_singleton.
  - rewrite lookup_insert_ne in H by done.
    destruct (IH H) as [? ?]. split; [|done].
    apply elem_of_app. by left.
Qed.

Lemma stepMap_None steps n :
  stepMap (build steps) !! n = None ↔ n ∉ Name <$> steps.
Proof.
  induction steps as [|x l IH] using rev_ind.
  - split; [intros _ H; inversion H | done].
  - rewrite build_snoc, fmap_app. simpl.
    rewrite lookup_insert_None, IH, elem_of_app, list_elem_of_singleton.
    split; [intros [? ?] [?|?]; [done|congruence] | intros H; split; [tauto | intros ?; apply H; by right]].
Qed.

Lemma inDegree_stepMap steps n :
  inDegree (build steps) !! n =
  (λ s, Z.of_nat (length (Depends s))) <$> stepMap (build steps) !! n.
Proof.
  induction steps as [|x l IH] using rev_ind; [done|].
  rewrite build_snoc. simpl.
  destruct (decide (Name x = n)) as [<-|Hne].
  - by rewrite !lookup_insert_eq.
  - by rewrite !lookup_insert_ne.
Qed.

Lemma stepMap_NoDup steps s :
  NoDup (Name <$> steps) → s ∈ steps → stepMap (build steps) !! Name s = Some s.
Proof.
  induction steps as [|x l IH] using rev_ind; [by intros _ H; inversion H|].
  rewrite build_snoc, fmap_app. simpl. intros Hnd Hin.
  apply NoDup_app in Hnd as (Hl & Hdisj & _).
  apply elem_of_app in Hin as [Hin|Hin].
  - rewrite lookup_insert_ne; [by apply IH|].
    intros Heq. apply (Hdisj (Name s)).
    + apply list_elem_of_fmap. eauto.
    + rewrite <- Heq. by apply list_elem_of_singleton.
  - apply list_elem_of_singleton in Hin as ->. by rewrite lookup_insert_eq.
Qed.

Lemma add_dependents_lookup name deps m p :
  default [] (foldl (add_dependent name) m deps !! p) =
  default [] (m !! p) ++ (filter (λ e, e.1 = p) ((λ d, (d, name)) <$> deps)).*2.
Proof.
  revert m. induction deps as [|d deps IH]; intros m; csimpl.
  - by rewrite app_nil_r.
  - rewrite IH. unfold add_dependent.
    destruct (decide (d = p)) as [<-|Hne].
    + rewrite lookup_insert_eq, filter_cons_True by done.
      simpl. by rewrite <- app_assoc.
    + rewrite lookup_insert_ne, filter_cons_False by done. done.
Qed.

Lemma dependents_lookup steps p :
  default [] (dependents (build steps) !! p) =
  (filter (λ e, e.1 = p) (edges steps)).*2.
Proof.
  induction steps as [|x l IH] using rev_ind.
  - simpl. by rewrite lookup_empty.
  - rewrite build_snoc. simpl. rewrite add_dependents_lookup, IH.
    unfold edges. rewrite flat_map_app. simpl. rewrite app_nil_r.
    by rewrite filter_app, fmap_app.
Qed.

(** ** Counting dependency entries *)

Lemma length_filter_mono {A} (P Q : A → Prop)
    `{!∀ x, Decision (P x)} `{!∀ x, Decision (Q x)} (l : list A) :
  (∀ x, x ∈ l → P x → Q x) → (length (filter P l) ≤ length (filter Q l))%nat.
Proof.
  induction l as [|a l IH]; intros Himp; [done|].
  assert (length (filter P l) ≤ length (filter Q l))%nat as IH'.
  { apply IH. intros x Hx. apply Himp. by right. }
  destruct (decide (P a)) as [Hp|Hp].
  - rewrite (filter_cons_True P) by done.
    rewrite (filter_cons_True Q) by (apply Himp; [left|done]). simpl. lia.
  - rewrite (filter_cons_False P) by done.
    destruct (decide (Q a)).
    + rewrite (filter_cons_True Q) by done. simpl. lia.
    + by rewrite (filter_cons_False Q).
Qed.

Lemma length_filter_all {A} (P : A → Prop) `{!∀ x, Decision (P x)} (l : list A) :
  (length l ≤ length (filter P l))%nat → ∀ x, x ∈ l → P x.
Proof.
  induction l as [|a l IH]; intros Hlen x Hx; [by inversion Hx|].
  pose proof (length_filter P l) as Hle.
  destruct (decide (P a)) as [Hp|Hp].
  - rewrite filter_cons_True in Hlen by done. simpl in Hlen.
    apply elem_of_cons in Hx as [->|Hx]; [done|]. apply IH; [lia|done].
  - rewrite filter_cons_False in Hlen by done. simpl in Hlen. lia.
Qed.

Lemma length_filter_ex {A} (P : A → Prop) `{!∀ x, Decision (P x)} (l : list A) :
  (length (filter P l) < length l)%nat → ∃ x, x ∈ l ∧ ¬ P x.
Proof.
  induction l as [|a l IH]; simpl; intros Hlen; [lia|].
  destruct (decide (P a)) as [Hp|Hp].
  - rewrite filter_cons_True in Hlen by done. simpl in Hlen.
    destruct IH as (x & Hx & Hnx); [lia|]. exists x. split; [by right|done].
  - exists a. split; [by left|done].
Qed.

Lemma occ_snoc n l d :
  occ n (l ++ [d]) = (occ n l + if decide (d = n) then 1 else 0)%nat.
Proof.
  unfold occ. rewrite filter_app, length_app.
  destruct (decide (d = n)).
  - by rewrite filter_cons_True.
  - by rewrite filter_cons_False.
Qed.

Lemma occ_app n l k : occ n (l ++ k) = (occ n l + occ n k)%nat.
Proof. unfold occ. by rewrite filter_app, length_app. Qed.

Lemma got_nil E n : got E n [] = 0%nat.
Proof.
  unfold got. induction E as [|e E IH]; [done|].
  rewrite filter_cons_False; [done|]. intros [_ H]. by inversion H.
Qed.

Lemma got_le E n P : (got E n P ≤ length E)%nat.
Proof. apply length_filter. Qed.

Lemma got_mono E n P Q : (∀ x, x ∈ P → x ∈ Q) → (got E n P ≤ got E n Q)%nat.
Proof.
  intros H. apply length_filter_mono. intros e _ [? ?]. split; [done|by apply H].
Qed.

Lemma got_snoc E n P name :
  name ∉ P →
  got E n (P ++ [name]) = (got E n P + occ n (filter (λ e, e.1 = name) E).*2)%nat.
Proof.
  intros Hn. unfold got, occ. induction E as [|e E IH]; [done|].
  destruct (decide (e.1 = name)) as [He|He].
  - rewrite (filter_cons_True (λ e, e.1 = name)) by done.
    rewrite fmap_cons.
    rewrite (filter_cons_False (λ e, e.2 = n ∧ e.1 ∈ P)) by (rewrite He; tauto).
    destruct (decide (e.2 = n)) as [Hn2|Hn2].
    + rewrite !filter_cons_True; [simpl; lia|done|].
      split; [done|]. rewrite He. apply elem_of_app. right. by left.
    + rewrite !filter_cons_False; [done|done|tauto].
  - rewrite (filter_cons_False (λ e, e.1 = name)) by done.
    destruct (decide (e.2 = n ∧ e.1 ∈ P)) as [Hd|Hd].
    + rewrite !filter_cons_True; [simpl; lia|done|].
      destruct Hd. split; [done|]. apply elem_of_app. by left.
    + rewrite !filter_cons_False; [done|done|].
      intros [? [?|Hx]%elem_of_app]; [tauto|].
      apply list_elem_of_singleton in Hx. done.
Qed.

Lemma edges_elem steps d n :
  (d, n) ∈ edges steps ↔ depends_on steps n d.
Proof.
  unfold edges, depends_on. rewrite list_elem_of_In, in_flat_map. split.
  - intros (s & Hs & Hin). apply list_elem_of_In in Hs, Hin.
    apply list_elem_of_fmap in Hin as (d' & Heq & Hd). inversion Heq; subst.
    eauto.
  - intros (s & Hs & <- & Hd). exists s. rewrite <- !list_elem_of_In.
    split; [done|]. apply list_elem_of_fmap. eauto.
Qed.

Lemma depends_on_name steps n d : depends_on steps n d → n ∈ Name <$> steps.
Proof. intros (s & Hs & <- & _). apply list_elem_of_fmap. eauto. Qed.

Lemma edges_length steps s :
  s ∈ steps → (length (Depends s) ≤ length (edges steps))%nat.
Proof.
  induction steps as [|x l IH]; intros H; [by inversion H|].
  unfold edges. simpl. rewrite length_app, length_fmap.
  apply elem_of_cons in H as [->|H]; [lia|].
  specialize (IH H). unfold edges in IH. lia.
Qed.

Lemma base_lookup steps n s :
  stepMap (build steps) !! n = Some s →
  base steps n = Z.of_nat (length (Depends s)).
Proof. intros H. unfold base. by rewrite inDegree_stepMap, H. Qed.

Lemma name_stepMap steps n :
  n ∈ Name <$> steps → ∃ s, stepMap (build steps) !! n = Some s.
Proof.
  intros H. destruct (stepMap (build steps) !! n) eqn:E; [eauto|].
  by apply stepMap_None in E.
Qed.

Lemma base_bounds steps n :
  n ∈ Name <$> steps → 0 ≤ base steps n ≤ Z.of_nat (length (edges steps)).
Proof.
  intros [s Hs]%name_stepMap. rewrite (base_lookup _ _ _ Hs).
  apply stepMap_lookup in Hs as [Hs _]. apply edges_length in Hs. lia.
Qed.

(** ** The invariant of Kahn's loops *)

Lemma kahn_inv_ext steps pq deg cnt cnt' :
  (∀ n, cnt n = cnt' n) → kahn_inv steps pq deg cnt → kahn_inv steps pq deg cnt'.
Proof.
  intros Heq [? ? Hdeg ? ?]. split; try done.
  intros n Hn. rewrite <- Heq. by apply Hdeg.
Qed.

Lemma kahn_inv_length steps pq deg cnt :
  kahn_inv steps pq deg cnt → (length pq ≤ length steps)%nat.
Proof.
  intros [Hnd Hnm _ _ _].
  rewrite <- (length_fmap Name steps).
  apply submseteq_length, NoDup_submseteq; done.
Qed.

(** One decrement, with its test, keeps the invariant; the counter does not
    wrap because it stays within the number of dependency entries. *)
Lemma relax_one_inv steps P queue deg cnt d :
  int_sized steps →
  kahn_inv steps (P ++ queue) deg cnt →
  d ∈ Name <$> steps →
  (S (cnt d) ≤ got (edges steps) d (P ++ queue))%nat →
  kahn_inv steps (P ++ (relax_one (deg, queue) d).2) (relax_one (deg, queue) d).1
    (λ n, if decide (n = d) then S (cnt n) else cnt n).
Proof.
  intros Hsz [Hnd Hnm Hdeg Hzero Hrdy] Hd Hcnt.
  pose proof (base_bounds steps d Hd) as Hb.
  pose proof (got_le (edges steps) d (P ++ queue)) as Hg.
  pose proof (Hdeg d Hd) as Hdd.
  unfold int_sized in Hsz.
  assert (wrap (default 0 (deg !! d) - 1) = default 0 (deg !! d) - 1) as Hw.
  { apply wrap_id. unfold min_int, max_int in *. lia. }
  unfold relax_one. cbn [fst snd]. rewrite Hw, lookup_insert_eq. cbn [default from_option id].
  destruct (default 0 (deg !! d) - 1 =? 0) eqn:Ez; cbn [fst snd].
  - apply Z.eqb_eq in Ez.
    assert (d ∉ P ++ queue) as Hfresh.
    { intros Hin. apply Hzero in Hin; [lia|done]. }
    rewrite app_assoc. split.
    + apply NoDup_app. split; [done|]. split; [|apply NoDup_singleton].
      intros x Hx ->%list_elem_of_singleton. done.
    + intros n [Hn| ->%list_elem_of_singleton]%elem_of_app; auto.
    + intros n Hn. destruct (decide (n = d)) as [->|Hne].
      * rewrite lookup_insert_eq. cbn [default from_option id]. lia.
      * rewrite lookup_insert_ne by done. by apply Hdeg.
    + intros n Hn. rewrite elem_of_app, list_elem_of_singleton.
      destruct (decide (n = d)) as [->|Hne].
      * rewrite lookup_insert_eq. cbn [default from_option id]. split; [lia|auto].
      * rewrite lookup_insert_ne by done. rewrite <- (Hzero n Hn). tauto.
    + intros i n Hi. destruct (decide (i < length (P ++ queue))%nat) as [Hlt|Hge].
      * rewrite lookup_app_l in Hi by done. rewrite take_app_le by lia.
        by apply Hrdy.
      * rewrite lookup_app_r in Hi by lia.
        apply list_lookup_singleton_Some in Hi as [Hi0 <-].
        rewrite take_app_ge by lia.
        replace (i - length (P ++ queue))%nat with 0%nat by lia.
        rewrite take_0, app_nil_r. lia.
  - apply Z.eqb_neq in Ez. split; try done.
    + intros n Hn. destruct (decide (n = d)) as [->|Hne].
      * rewrite lookup_insert_eq. cbn [default from_option id]. lia.
      * rewrite lookup_insert_ne by done. by apply Hdeg.
    + intros n Hn. destruct (decide (n = d)) as [->|Hne].
      * rewrite lookup_insert_eq. cbn [default from_option id]. rewrite (Hzero d Hd). lia.
      * rewrite lookup_insert_ne by done. by apply Hzero.
Qed.

Lemma dependents_names steps p d :
  d ∈ default [] (dependents (build steps) !! p) → d ∈ Name <$> steps.
Proof.
  rewrite dependents_lookup. intros ([d' n] & -> & He)%list_elem_of_fmap.
  apply list_elem_of_filter in He as [_ He].
  apply edges_elem in He. by eapply depends_on_name.
Qed.

(** The inner loop over [dependents[name]], split as done [L1] and to do
    [L2]. *)
Lemma relax_inv steps P name :
  int_sized steps → name ∉ P →
  ∀ L2 L1 queue deg,
    L1 ++ L2 = default [] (dependents (build steps) !! name) →
    kahn_inv steps ((P ++ [name]) ++ queue) deg
      (λ n, got (edges steps) n P + occ n L1)%nat →
    kahn_inv steps ((P ++ [name]) ++ (relax L2 (deg, queue)).2)
      (relax L2 (deg, queue)).1
      (λ n, got (edges steps) n P + occ n (L1 ++ L2))%nat.
Proof.
  intros Hsz Hname. induction L2 as [|d L2 IH]; intros L1 queue deg HL Hinv.
  - cbn. eapply kahn_inv_ext; [|done]. intros n. by rewrite app_nil_r.
  - assert (d ∈ Name <$> steps) as Hd.
    { apply (dependents_names steps name). rewrite <- HL.
      apply elem_of_app. right. by left. }
    assert (S (got (edges steps) d P + occ d L1)
            ≤ got (edges steps) d ((P ++ [name]) ++ queue))%nat as Hcnt.
    { etrans; [|apply (got_mono _ _ (P ++ [name]))].
      - rewrite got_snoc by done. rewrite <- dependents_lookup, <- HL.
        rewrite occ_app. unfold occ at 3. rewrite filter_cons_True by done.
        simpl. lia.
      - intros x Hx. apply elem_of_app. by left. }
    pose proof (relax_one_inv steps _ _ _ _ d Hsz Hinv Hd Hcnt) as Hstep.
    change (relax (d :: L2) (deg, queue)) with (relax L2 (relax_one (deg, queue) d)).
    destruct (relax_one (deg, queue) d) as [deg' queue'].
    cbn [fst snd] in Hstep.
    replace (L1 ++ d :: L2) with ((L1 ++ [d]) ++ L2) by by rewrite <- app_assoc.
    apply IH; [by rewrite <- app_assoc|].
    eapply kahn_inv_ext; [|exact Hstep].
    intros n. cbn beta. rewrite occ_snoc.
    destruct (decide (n = d)) as [->|Hne].
    + rewrite decide_True by done. lia.
    + rewrite decide_False by congruence. lia.
Qed.

(** One turn of the outer loop. *)
Lemma kahn_step_inv steps P name rest deg :
  int_sized steps →
  kahn_inv steps (P ++ name :: rest) deg (λ n, got (edges steps) n P) →
  let st := relax (default [] (dependents (build steps) !! name)) (deg, rest) in
  kahn_inv steps ((P ++ [name]) ++ st.2) st.1
    (λ n, got (edges steps) n (P ++ [name])).
Proof.
  intros Hsz Hinv st.
  assert (name ∉ P) as Hname.
  { destruct Hinv as [Hnd _ _ _ _]. apply NoDup_app in Hnd as (_ & Hdisj & _).
    intros Hin. apply (Hdisj _ Hin). by left. }
  eapply kahn_inv_ext;
    [|apply (relax_inv steps P name Hsz Hname _ [] rest deg); [done|]].
  - intros n. cbn beta. rewrite got_snoc by done.
    by rewrite <- dependents_lookup.
  - rewrite <- app_assoc. eapply kahn_inv_ext; [|exact Hinv].
    intros n. unfold occ. simpl. lia.
Qed.

Lemma seed_filter deg visit :
  seed deg visit = filter (λ n, deg !! n = Some 0) visit.
Proof.
  unfold seed.
  enough (∀ acc, foldl (seed_one deg) acc visit
                 = acc ++ filter (λ n, deg !! n = Some 0) visit) as H
    by apply (H []).
  induction visit as [|n visit IH]; intros acc; cbn [foldl].
  - by rewrite app_nil_r.
  - rewrite IH. unfold seed_one.
    destruct (decide (deg !! n = Some 0)) as [E|E].
    + rewrite filter_cons_True, E by done. by rewrite <- app_assoc.
    + rewrite filter_cons_False by done.
      destruct (deg !! n) as [[| |]|]; done.
Qed.

Lemma seed_inv steps visit :
  NoDup visit → (∀ n, n ∈ visit ↔ n ∈ Name <$> steps) →
  kahn_inv steps ([] ++ seed (inDegree (build steps)) visit)
    (inDegree (build steps)) (λ n, got (edges steps) n []).
Proof.
  intros Hnd Hvis. rewrite seed_filter, app_nil_l.
  assert (∀ n, n ∈ Name <$> steps →
            inDegree (build steps) !! n = Some (base steps n)) as Hsome.
  { intros n [s Hs]%name_stepMap. unfold base.
    by rewrite inDegree_stepMap, Hs. }
  split.
  - by apply NoDup_filter.
  - intros n [_ Hn]%list_elem_of_filter. by apply Hvis.
  - intros n Hn. rewrite got_nil. fold (base steps n). lia.
  - intros n Hn. fold (base steps n). rewrite list_elem_of_filter, (Hsome n Hn).
    pose proof (base_bounds steps n Hn). split.
    + intros [[= ->] _]. done.
    + intros Hle. split; [f_equal; lia|by apply Hvis].
  - intros i n Hi. apply list_elem_of_lookup_2, list_elem_of_filter in Hi as [Hz Hn].
    apply Hvis in Hn. rewrite (Hsome n Hn) in Hz. injection Hz as ->. lia.
Qed.

Lemma kahn_turn steps order name rest deg :
  int_sized steps →
  kahn_inv steps ((Name <$> order) ++ name :: rest) deg
    (λ n, got (edges steps) n (Name <$> order)) →
  order_ok steps order →
  let order' := order ++ [default zero_step (stepMap (build steps) !! name)] in
  let st := relax (default [] (dependents (build steps) !! name)) (deg, rest) in
  kahn_inv steps ((Name <$> order') ++ st.2) st.1
    (λ n, got (edges steps) n (Name <$> order')) ∧
  order_ok steps order'.
Proof.
  intros Hsz Hinv Hok order' st.
  assert (name ∈ Name <$> steps) as Hname.
  { destruct Hinv as [_ Hnm _ _ _]. apply Hnm, elem_of_app. right. by left. }
  apply name_stepMap in Hname as [s Hs].
  pose proof (stepMap_lookup _ _ _ Hs) as [_ Hns].
  assert (Name <$> order' = (Name <$> order) ++ [name]) as ->.
  { unfold order'. rewrite fmap_app, Hs. simpl. by rewrite Hns. }
  split; [by apply kahn_step_inv|].
  unfold order'. apply Forall_app. split; [done|].
  rewrite Hs. simpl. apply Forall_singleton. by rewrite Hns.
Qed.

(** Partial correctness: whatever the fuel, a returned order satisfies the
    invariant with an empty queue. *)
Lemma kahn_sound steps fuel :
  int_sized steps →
  ∀ queue order deg order',
    kahn_inv steps ((Name <$> order) ++ queue) deg
      (λ n, got (edges steps) n (Name <$> order)) →
    order_ok steps order →
    kahn fuel (build steps) queue order deg = Some order' →
    (∃ deg', kahn_inv steps (Name <$> order') deg'
       (λ n, got (edges steps) n (Name <$> order'))) ∧ order_ok steps order'.
Proof.
  intros Hsz. induction fuel as [|fuel IH]; intros queue order deg order' Hinv Hok Hk;
    [done|].
  destruct queue as [|name rest]; cbn [kahn] in Hk.
  - injection Hk as <-. rewrite app_nil_r in Hinv. eauto.
  - destruct (kahn_turn steps order name rest deg Hsz Hinv Hok) as [Hinv' Hok'].
    eapply IH; [exact Hinv'|exact Hok'|exact Hk].
Qed.

(** Termination: the loop pops each name at most once. *)
Lemma kahn_total steps fuel :
  int_sized steps →
  ∀ queue order deg,
    kahn_inv steps ((Name <$> order) ++ queue) deg
      (λ n, got (edges steps) n (Name <$> order)) →
    order_ok steps order →
    (length steps < fuel + length order)%nat →
    is_Some (kahn fuel (build steps) queue order deg).
Proof.
  intros Hsz. induction fuel as [|fuel IH]; intros queue order deg Hinv Hok Hf.
  - apply kahn_inv_length in Hinv. rewrite length_app, length_fmap in Hinv. lia.
  - destruct queue as [|name rest]; cbn [kahn]; [eauto|].
    destruct (kahn_turn steps order name rest deg Hsz Hinv Hok) as [Hinv' Hok'].
    apply IH; [exact Hinv'|exact Hok'|]. rewrite length_app. simpl. lia.
Qed.

(** ** Cycles *)

Lemma tc_sub {A} (R R' : relation A) :
  (∀ x y, R' x y → tc R x y) → ∀ x y, tc R' x y → tc R x y.
Proof.
  intros Hsub x y Ht. induction Ht as [x y Hxy|x y z Hxy _ IH].
  - by apply Hsub.
  - etrans; [by apply Hsub|done].
Qed.

(** In a finite non-empty set where every element has a successor, some
    element reaches itself. *)
Lemma no_sink_cycle {A} `{EqDecision A} (n : nat) :
  ∀ (R : relation A) (l : list A),
    (length l ≤ n)%nat → l ≠ [] →
    (∀ x, x ∈ l → ∃ y, y ∈ l ∧ R x y) → ∃ x, tc R x x.
Proof.
  induction n as [|n IH]; intros R l Hlen Hne Hsucc.
  - destruct l; [done|simpl in Hlen; lia].
  - destruct l as [|a l]; [done|].
    destruct (Hsucc a) as (y & Hy & Ray); [by left|].
    destruct (decide (y = a)) as [->|Hya]; [exists a; by apply tc_once|].
    assert (y ∈ filter (λ x, x ≠ a) l) as Hyl.
    { apply list_elem_of_filter. split; [done|].
      apply elem_of_cons in Hy as [?|?]; done. }
    destruct (IH (λ x z, R x z ∨ (R x a ∧ R a z)) (filter (λ x, x ≠ a) l))
      as [x Hx].
    + pose proof (length_filter (λ x, x ≠ a) l). simpl in Hlen. lia.
    + intros Hnil. rewrite Hnil in Hyl. by inversion Hyl.
    + intros x [Hxa Hx]%list_elem_of_filter.
      destruct (Hsucc x) as (z & Hz & Rxz); [by right|].
      destruct (decide (z = a)) as [->|Hza].
      * exists y. split; [done|]. right. done.
      * exists z. split; [|by left]. apply list_elem_of_filter. split; [done|].
        apply elem_of_cons in Hz as [?|?]; done.
    + exists x. eapply tc_sub; [|exact Hx].
      intros u v [Huv|[Hua Hav]]; [by apply tc_once|].
      etrans; apply tc_once; done.
Qed.

(** ** Unique names: the counters count the unpopped dependencies *)

Lemma got_app E1 E2 n P : got (E1 ++ E2) n P = (got E1 n P + got E2 n P)%nat.
Proof. unfold got. by rewrite filter_app, length_app. Qed.

Lemma got_own name deps P :
  got ((λ d, (d, name)) <$> deps) name P = length (filter (λ d, d ∈ P) deps).
Proof.
  unfold got. induction deps as [|d deps IH]; [done|]. rewrite fmap_cons.
  destruct (decide (d ∈ P)).
  - rewrite !filter_cons_True by done. simpl. by rewrite IH.
  - rewrite !filter_cons_False; [done|done|]. simpl. tauto.
Qed.

Lemma got_other name deps n P :
  name ≠ n → got ((λ d, (d, name)) <$> deps) n P = 0%nat.
Proof.
  intros Hne. unfold got. induction deps as [|d deps IH]; [done|].
  rewrite fmap_cons, filter_cons_False; [done|]. simpl. tauto.
Qed.

Lemma got_absent steps n P : n ∉ Name <$> steps → got (edges steps) n P = 0%nat.
Proof.
  induction steps as [|x l IH]; intros Hn; [done|].
  unfold edges. simpl. rewrite got_app.
  rewrite fmap_cons, not_elem_of_cons in Hn. destruct Hn as [Hne Hn].
  rewrite got_other by done. unfold edges in IH. by rewrite IH.
Qed.

Lemma got_unique steps s P :
  NoDup (Name <$> steps) → s ∈ steps →
  got (edges steps) (Name s) P = length (filter (λ d, d ∈ P) (Depends s)).
Proof.
  induction steps as [|x l IH]; intros Hnd Hs; [by inversion Hs|].
  rewrite fmap_cons in Hnd. apply NoDup_cons in Hnd as [Hx Hnd].
  unfold edges. simpl. rewrite got_app. fold (edges l).
  apply elem_of_cons in Hs as [->|Hs].
  - rewrite got_own, got_absent by done. lia.
  - rewrite got_other, IH; [done|done|done|].
    intros Heq. apply Hx. rewrite Heq. by apply list_elem_of_fmap_2.
Qed.

(** ** What a finished loop has computed *)

Lemma order_ok_elem steps order s :
  order_ok steps order → s ∈ order → s ∈ steps.
Proof.
  intros Hok Hs. eapply Forall_forall in Hok; [|exact Hs].
  by apply stepMap_lookup in Hok as [? _].
Qed.

(** A full-length order uses every name once. *)
Lemma full_order_perm steps order deg cnt :
  kahn_inv steps (Name <$> order) deg cnt → order_ok steps order →
  length order = length steps →
  NoDup (Name <$> steps) ∧ order ≡ₚ steps.
Proof.
  intros [Hnd Hnm _ _ _] Hok Hlen.
  assert ((Name <$> order) ≡ₚ (Name <$> steps)) as Hperm.
  { apply submseteq_length_Permutation; [by apply NoDup_submseteq|].
    rewrite !length_fmap. lia. }
  split; [by rewrite <- Hperm|].
  apply submseteq_length_Permutation; [|lia].
  apply NoDup_submseteq; [by eapply NoDup_fmap_1|].
  intros s. by apply order_ok_elem.
Qed.

Lemma final_topological steps order deg cnt :
  NoDup (Name <$> steps) →
  kahn_inv steps (Name <$> order) deg cnt → order_ok steps order →
  topological order.
Proof.
  intros Hnd [_ _ _ _ Hrdy] Hok i s d Hi Hd.
  assert (stepMap (build steps) !! Name s = Some s) as Hs.
  { eapply Forall_forall in Hok; [exact Hok|]. by eapply list_elem_of_lookup_2. }
  specialize (Hrdy i (Name s)). rewrite list_lookup_fmap, Hi in Hrdy.
  specialize (Hrdy eq_refl). rewrite (base_lookup _ _ _ Hs) in Hrdy.
  pose proof (stepMap_lookup _ _ _ Hs) as [Hin _].
  rewrite (got_unique steps s _ Hnd Hin) in Hrdy.
  assert (d ∈ take i (Name <$> order)) as Hdi.
  { apply (length_filter_all (λ d, d ∈ take i (Name <$> order)) (Depends s));
      [lia|done]. }
  apply elem_of_take in Hdi as (j & Hj & Hlt).
  rewrite list_lookup_fmap in Hj.
  destruct (order !! j) as [t|] eqn:Et; [|done].
  injection Hj as Hj. eauto.
Qed.

(** With every dependency declared and no cycle, nothing is left behind
    when the queue runs empty. *)
Lemma final_complete steps order deg :
  NoDup (Name <$> steps) → deps_exist steps → acyclic steps →
  kahn_inv steps (Name <$> order) deg
    (λ n, got (edges steps) n (Name <$> order)) →
  length order = length steps.
Proof.
  intros Hnd Hdeps Hacyc Hinv.
  pose proof (kahn_inv_length _ _ _ _ Hinv) as Hle. rewrite length_fmap in Hle.
  destruct Hinv as [Hndo Hnm Hdeg Hzero _].
  set (U := filter (λ n, n ∉ Name <$> order) (Name <$> steps)).
  destruct (decide (U = [])) as [HU|HU].
  - assert (length (Name <$> steps) ≤ length (Name <$> order))%nat as Hge.
    { apply submseteq_length, NoDup_submseteq; [done|].
      intros n Hn. destruct (decide (n ∈ Name <$> order)) as [|Hno]; [done|].
      assert (n ∈ U) as HnU by (apply list_elem_of_filter; done).
      rewrite HU in HnU. by inversion HnU. }
    rewrite !length_fmap in Hge. lia.
  - exfalso.
    destruct (no_sink_cycle (length U) (depends_on steps) U) as [x Hx];
      [done|done| |by apply (Hacyc x)].
    intros n [Hno Hn]%list_elem_of_filter.
    assert (0 < default 0 (deg !! n)) as Hpos.
    { destruct (decide (default 0 (deg !! n) ≤ 0)) as [Hz|]; [|lia].
      apply Hzero in Hz; done. }
    rewrite (Hdeg n Hn) in Hpos.
    pose proof Hn as Hn'. apply list_elem_of_fmap in Hn' as (s & -> & Hs).
    rewrite (base_lookup _ _ s) in Hpos by by apply stepMap_NoDup.
    rewrite (got_unique steps s _ Hnd Hs) in Hpos.
    destruct (length_filter_ex (λ d, d ∈ Name <$> order) (Depends s))
      as (d & Hd & Hdo); [lia|].
    exists d. split.
    + apply list_elem_of_filter. split; [done|]. by eapply Hdeps.
    + exists s. done.
Qed.

(** An order in which dependencies come first rules out cycles. *)
Lemma topological_acyclic steps order :
  NoDup (Name <$> steps) → order ≡ₚ steps → topological order → acyclic steps.
Proof.
  intros Hnd Hperm Htopo.
  assert (NoDup (Name <$> order)) as Hndo by by rewrite Hperm.
  assert (∀ n m, tc (depends_on steps) n m →
            ∀ i, (Name <$> order) !! i = Some n →
              ∃ j, (j < i)%nat ∧ (Name <$> order) !! j = Some m) as Hdown.
  { intros n m Ht. induction Ht as [n m Hnm|n m k Hnm _ IH]; intros i Hi.
    - destruct Hnm as (s & Hs & <- & Hd).
      rewrite <- Hperm in Hs. apply list_elem_of_lookup_1 in Hs as [i' Hi'].
      assert ((Name <$> order) !! i' = Some (Name s)) as Hi''
        by by rewrite list_lookup_fmap, Hi'.
      assert (i' = i) as -> by by eapply NoDup_lookup.
      destruct (Htopo i s m Hi' Hd) as (j & t & Hlt & Hj & <-).
      exists j. split; [done|]. by rewrite list_lookup_fmap, Hj.
    - assert (∃ j, (j < i)%nat ∧ (Name <$> order) !! j = Some m) as (j & Hlt & Hj).
      { destruct Hnm as (s & Hs & <- & Hd).
        rewrite <- Hperm in Hs. apply list_elem_of_lookup_1 in Hs as [i' Hi'].
        assert ((Name <$> order) !! i' = Some (Name s)) as Hi''
          by by rewrite list_lookup_fmap, Hi'.
        assert (i' = i) as -> by by eapply NoDup_lookup.
        destruct (Htopo i s m Hi' Hd) as (j & t & Hlt & Hj & <-).
        exists j. split; [done|]. by rewrite list_lookup_fmap, Hj. }
      destruct (IH j Hj) as (j' & Hlt' & Hj'). exists j'. split; [lia|done]. }
  intros n Hn.
  assert (n ∈ Name <$> order) as [i Hi]%list_elem_of_lookup_1.
  { rewrite Hperm. inversion Hn as [? ? H1|? ? ? H1]; by eapply depends_on_name. }
  destruct (Hdown n n Hn i Hi) as (j & Hlt & Hj).
  assert (j = i) by by eapply NoDup_lookup. lia.
Qed.

(** ** The validation loop *)

Lemma validate_deps_None sm name deps :
  validate_deps sm name deps = None ↔ ∀ d, d ∈ deps → is_Some (sm !! d).
Proof.
  induction deps as [|d deps IH]; simpl.
  - split; [intros _ d Hd; by inversion Hd|done].
  - destruct (sm !! d) eqn:E.
    + rewrite IH. split.
      * intros Hall x [->|Hx]%elem_of_cons; [by rewrite E|by apply Hall].
      * intros Hall x Hx. apply Hall. by right.
    + split; [done|]. intros Hall. destruct (Hall d) as [? Hd]; [by left|].
      congruence.
Qed.

Lemma validate_deps_Some sm name deps e :
  validate_deps sm name deps = Some e →
  ∃ d, e = UnknownDependency name d ∧ d ∈ deps ∧ sm !! d = None.
Proof.
  induction deps as [|d deps IH]; simpl; [done|].
  destruct (sm !! d) eqn:E.
  - intros (d' & ? & ? & ?)%IH. exists d'. split; [done|]. split; [by right|done].
  - intros [= <-]. exists d. split; [done|]. split; [by left|done].
Qed.

Lemma validate_None sm steps :
  validate sm steps = None ↔ ∀ s d, s ∈ steps → d ∈ Depends s → is_Some (sm !! d).
Proof.
  induction steps as [|x l IH]; simpl.
  - split; [intros _ s d Hs; by inversion Hs|done].
  - destruct (validate_deps sm (Name x) (Depends x)) eqn:E.
    + split; [done|]. intros Hall.
      assert (validate_deps sm (Name x) (Depends x) = None) as E'.
      { apply validate_deps_None. intros d Hd. apply (Hall x); [by left|done]. }
      congruence.
    + rewrite IH. rewrite validate_deps_None in E. split.
      * intros Hall s d [->|Hs]%elem_of_cons Hd; [by apply E|by eapply Hall].
      * intros Hall s d Hs Hd. apply (Hall s); [by right|done].
Qed.

Lemma validate_Some sm steps e :
  validate sm steps = Some e →
  ∃ s d, e = UnknownDependency (Name s) d ∧ s ∈ steps ∧ d ∈ Depends s ∧
         sm !! d = None.
Proof.
  induction steps as [|x l IH]; simpl; [done|].
  destruct (validate_deps sm (Name x) (Depends x)) eqn:E.
  - intros [= <-]. apply validate_deps_Some in E as (d & ? & ? & ?).
    exists x, d. split; [done|]. split; [by left|done].
  - intros (s & d & ? & ? & ?)%IH. exists s, d. split; [done|].
    split; [by right|done].
Qed.

Lemma validate_build steps :
  validate (stepMap (build steps)) steps = None ↔ deps_exist steps.
Proof.
  rewrite validate_None. unfold deps_exist. split; intros H s d Hs Hd.
  - destruct (H s d Hs Hd) as [t Ht].
    destruct (decide (d ∈ Name <$> steps)) as [|Hn]; [done|].
    apply stepMap_None in Hn. congruence.
  - by apply name_stepMap, (H s).
Qed.

(** ** GetExecutionOrder *)

Lemma GetExecutionOrder_inr fuel visit w order :
  int_sized (Steps w) → valid_visit w visit →
  GetExecutionOrder fuel visit w = Some (inr order) →
  NoDup (Name <$> Steps w) ∧ deps_exist (Steps w) ∧
  order ≡ₚ Steps w ∧ topological order.
Proof.
  intros Hsz [Hnd Hvis]. unfold GetExecutionOrder. cbn zeta.
  destruct (validate _ _) eqn:Ev; [done|].
  destruct (kahn _ _ _ _ _) as [order'|] eqn:Ek; [|done].
  destruct (decide (length order' ≠ length (Steps w))) as [|Hlen]; [done|].
  intros [= ->]. apply dec_stable in Hlen.
  destruct (kahn_sound (Steps w) fuel Hsz _ [] _ _
              (seed_inv _ _ Hnd Hvis) (Forall_nil_2 _) Ek) as [[deg' Hinv] Hok].
  destruct (full_order_perm _ _ _ _ Hinv Hok Hlen) as [Hndn Hperm].
  split; [done|]. split; [by apply validate_build|]. split; [done|].
  by eapply final_topological.
Qed.

Lemma GetExecutionOrder_total fuel visit w :
  int_sized (Steps w) → valid_visit w visit →
  (length (Steps w) < fuel)%nat →
  is_Some (GetExecutionOrder fuel visit w).
Proof.
  intros Hsz [Hnd Hvis] Hfuel. unfold GetExecutionOrder. cbn zeta.
  destruct (validate _ _); [eauto|].
  destruct (kahn_total (Steps w) fuel Hsz _ [] _
              (seed_inv _ _ Hnd Hvis) (Forall_nil_2 _)) as [order Ek];
    [simpl; lia|].
  rewrite Ek. destruct (decide _); eauto.
Qed.

Lemma GetExecutionOrder_complete fuel visit w :
  NoDup (Name <$> Steps w) → deps_exist (Steps w) → acyclic (Steps w) →
  int_sized (Steps w) → valid_visit w visit →
  (length (Steps w) < fuel)%nat →
  ∃ order, GetExecutionOrder fuel visit w = Some (inr order).
Proof.
  intros Hndn Hdeps Hacyc Hsz [Hnd Hvis] Hfuel.
  unfold GetExecutionOrder. cbn zeta.
  rewrite (proj2 (validate_build _) Hdeps).
  destruct (kahn_total (Steps w) fuel Hsz _ [] _
              (seed_inv _ _ Hnd Hvis) (Forall_nil_2 _)) as [order Ek];
    [simpl; lia|].
  rewrite Ek.
  destruct (kahn_sound (Steps w) fuel Hsz _ [] _ _
              (seed_inv _ _ Hnd Hvis) (Forall_nil_2 _) Ek) as [[deg' Hinv] Hok].
  pose proof (final_complete _ _ _ Hndn Hdeps Hacyc Hinv) as Hlen.
  rewrite decide_False by (intros Hne; by apply Hne). eauto.
Qed.

Lemma GetExecutionOrder_unknown fuel visit w s d :
  s ∈ Steps w → d ∈ Depends s → d ∉ Name <$> Steps w →
  ∃ s' d', GetExecutionOrder fuel visit w
             = Some (inl (UnknownDependency (Name s') d')) ∧
           s' ∈ Steps w ∧ d' ∈ Depends s' ∧ d' ∉ Name <$> Steps w.
Proof.
  intros Hs Hd Hn. unfold GetExecutionOrder. cbn zeta.
  destruct (validate _ _) as [e|] eqn:Ev.
  - apply validate_Some in Ev as (s' & d' & -> & Hs' & Hd' & Hnone).
    exists s', d'. split; [done|]. split; [done|]. split; [done|].
    by apply stepMap_None.
  - exfalso. apply validate_build in Ev. by apply Hn, (Ev s).
Qed.

Lemma GetExecutionOrder_cycle fuel visit w n :
  deps_exist (Steps w) → tc (depends_on (Steps w)) n n →
  int_sized (Steps w) → valid_visit w visit →
  (length (Steps w) < fuel)%nat →
  GetExecutionOrder fuel visit w = Some (inl DependencyCycle).
Proof.
  intros Hdeps Hcyc Hsz Hvis Hfuel.
  destruct (GetExecutionOrder_total fuel visit w Hsz Hvis Hfuel) as [[e|order] Hr].
  - rewrite Hr. revert Hr. unfold GetExecutionOrder. cbn zeta.
    rewrite (proj2 (validate_build _) Hdeps).
    destruct (kahn _ _ _ _ _); [|done]. destruct (decide _); [|done].
    by intros [= <-].
  - exfalso.
    destruct (GetExecutionOrder_inr _ _ _ _ Hsz Hvis Hr) as (Hnd & _ & Hperm & Htopo).
    by apply (topological_acyclic _ _ Hnd Hperm Htopo n).
Qed.

(** ** The runner *)

Lemma assign_all_union src dst : assign_all src dst = src ∪ dst.
Proof.
  unfold assign_all.
  apply (map_fold_weak_ind (λ r m, r = m ∪ dst)).
  - by rewrite (left_id_L ∅ (∪)).
  - intros i x m r _ ->. by rewrite insert_union_l.
Qed.

Section RunnerProofs.

Context {World : Type}.
Implicit Types (σ : Store World) (c : Call World) (calls : list (Call World)).
Implicit Types (handler : StepHandler World).

Lemma Status_set_Status exec status error :
  Status (set_Status exec status error) = status.
Proof. done. Qed.

(** The loop makes exactly the invocations the relation describes. *)
Lemma retry_loop_attempts handler d M fuel :
  M < max_int →
  ∀ a input exec res σ calls exec' res' σ' calls',
    min_int ≤ a →
    retry_loop fuel handler d M a input exec res σ calls
      = Some (exec', res', σ', calls') →
    ∃ new, calls' = calls ++ new ∧
           attempts handler d M a input exec res σ new (exec', res', σ').
Proof.
  intros HM. induction fuel as [|fuel IH];
    intros a input exec res σ calls exec' res' σ' calls' Ha Hrun; [done|].
  cbn [retry_loop] in Hrun.
  destruct (a <=? M) eqn:Ele.
  2:{ apply Z.leb_gt in Ele. injection Hrun as <- <- <- <-.
      exists []. rewrite app_nil_r. split; [done|]. by constructor. }
  apply Z.leb_le in Ele. cbn zeta in Hrun.
  set (input' := set_Attempt input a σ) in *.
  set (c := {| call_input := input'; call_result := (handler input' d σ).1;
               call_store := (handler input' d σ).2 |}) in *.
  assert (invoked handler d a input σ c) as Hinv.
  { split; [done|]. simpl. by destruct (handler input' d σ). }
  change ((handler input' d σ).1) with (call_result c) in Hrun.
  change ((handler input' d σ).2) with (call_store c) in Hrun.
  destruct (skip_set (call_result c)) eqn:Eskip.
  { injection Hrun as <- <- <- <-. exists [c]. split; [done|].
    apply attempts_last; [done|done|]. by apply exit_skipped. }
  destruct (HasErrors (call_result c)) eqn:Eerr; cbn [negb] in Hrun.
  2:{ injection Hrun as <- <- <- <-. exists [c]. split; [done|].
      apply attempts_last; [done|done|]. by apply exit_succeeded. }
  rewrite wrap_id in Hrun by (unfold min_int, max_int in *; lia).
  apply IH in Hrun as (new & -> & Hatt); [|unfold min_int in *; lia].
  destruct (a =? M) eqn:EM.
  - apply Z.eqb_eq in EM. subst a.
    inversion Hatt; subst; try lia.
    exists [c]. split; [by rewrite app_nil_r|].
    apply attempts_last; [done|done|]. by apply exit_failed.
  - apply Z.eqb_neq in EM. exists (c :: new).
    split; [by rewrite <- app_assoc|].
    apply attempts_retry; [lia|done|done|done].
Qed.

(** Below the largest [int] the counter cannot wrap and the loop ends
    within the attempt budget. *)
Lemma retry_loop_total handler d M fuel :
  M < max_int →
  ∀ a input exec res σ calls,
    min_int ≤ a → (Z.to_nat (M - a + 1) < fuel)%nat →
    is_Some (retry_loop fuel handler d M a input exec res σ calls).
Proof.
  intros HM. induction fuel as [|fuel IH];
    intros a input exec res σ calls Ha Hfuel; [lia|].
  cbn [retry_loop]. destruct (a <=? M) eqn:Ele; [|eauto].
  apply Z.leb_le in Ele. cbn zeta.
  destruct (skip_set _); [eauto|]. destruct (negb _); [eauto|].
  rewrite wrap_id by (unfold min_int, max_int in *; lia).
  apply IH; [unfold min_int in *; lia|lia].
Qed.

Lemma attempts_inputs handler d M a input exec res σ calls out :
  attempts handler d M a input exec res σ calls out →
  ∀ i c, calls !! i = Some c →
    Attempt (call_input c) = a + Z.of_nat i ∧
    Attempt (call_input c) ≤ M ∧
    TotalRetries (call_input c) = TotalRetries input.
Proof.
  induction 1 as [| a input exec res σ c exec' Ha [Hin _] _
                  | a input exec res σ c calls out Ha [Hin _] _ _ IH];
    intros i x Hi.
  - done.
  - apply list_lookup_singleton_Some in Hi as [-> <-]. rewrite Hin. simpl.
    split; [lia|done].
  - destruct i as [|i]; simpl in Hi.
    + injection Hi as <-. rewrite Hin. simpl. split; [lia|]. split; [lia|done].
    + destruct (IH i x Hi) as (-> & ? & ->). rewrite Hin. simpl.
      split; [lia|]. split; [lia|done].
Qed.

(** Whatever the budget, a loop that exits leaves the result and the
    store of the last invocation it made. *)
Lemma retry_loop_last handler d M fuel :
  ∀ a input exec res σ calls exec' res' σ' calls',
    retry_loop fuel handler d M a input exec res σ calls
      = Some (exec', res', σ', calls') →
    (calls' = calls ∧ exec' = exec ∧ res' = res ∧ σ' = σ) ∨
    (∃ front c, calls' = calls ++ front ++ [c] ∧
                res' = call_result c ∧ σ' = call_store c).
Proof.
  induction fuel as [|fuel IH];
    intros a input exec res σ calls exec' res' σ' calls' Hrun; [done|].
  cbn [retry_loop] in Hrun.
  destruct (a <=? M); [|injection Hrun as <- <- <- <-; by left].
  cbn zeta in Hrun. right.
  destruct (skip_set _); [injection Hrun as <- <- <- <-; by eexists [], _|].
  destruct (negb _); [injection Hrun as <- <- <- <-; by eexists [], _|].
  apply IH in Hrun as [(-> & _ & -> & ->)|(front & c & -> & -> & ->)].
  - by eexists [], _.
  - eexists (_ :: front), c. by rewrite <- app_assoc.
Qed.

(** Shape of a run of the loop: either no attempt at all, or retried
    attempts followed by the one that ends the loop. *)
Lemma attempts_shape handler d M a input exec res σ calls exec' res' σ' :
  attempts handler d M a input exec res σ calls (exec', res', σ') →
  (calls = [] ∧ M < a ∧ exec' = exec ∧ res' = res ∧ σ' = σ) ∨
  (a ≤ M ∧ ∃ front c, calls = front ++ [c] ∧ Forall retried front ∧
     loop_exit M exec c exec' ∧ res' = call_result c ∧ σ' = call_store c).
Proof.
  remember (exec', res', σ') as out eqn:Hout.
  induction 1 as [| a input exec res σ c e Ha _ Hexit
                  | a input exec res σ c calls out Ha _ Hret _ IH].
  - injection Hout as -> -> ->. left. done.
  - injection Hout as <- <- <-. right. split; [done|].
    exists [], c. done.
  - right. split; [lia|].
    destruct (IH Hout) as [(_ & ? & _)|(_ & front & c' & -> & Hf & He & -> & ->)];
      [lia|].
    exists (c :: front), c'. split; [done|]. split; [by constructor|done].
Qed.

Lemma executeStep_not_found fuel registry r step σ :
  Get registry (GetHandlerName (workflow r) step) = None →
  executeStep fuel registry r step σ =
  Some (set_Status (new_exec (workflow r) step) "Failed"
          ("handler not found: " +:+ GetHandlerName (workflow r) step), σ, []).
Proof. intros H. unfold executeStep. cbn zeta. by rewrite H. Qed.

Lemma executeStep_found fuel registry r step σ handler exec σ' calls :
  Get registry (GetHandlerName (workflow r) step) = Some handler →
  maxAttempts (workflow r) step < max_int →
  executeStep fuel registry r step σ = Some (exec, σ', calls) →
  ∃ e res σ1,
    attempts handler (deps r) (maxAttempts (workflow r) step) 1
      (new_input r step σ) (new_exec (workflow r) step) zero_result σ calls
      (e, res, σ1) ∧
    exec = record_result e res ∧ σ' = apply_updates res σ1.
Proof.
  intros Hget HM. unfold executeStep. cbn zeta. rewrite Hget.
  destruct (retry_loop _ _ _ _ _ _ _ _ _ _) as [[[[e res] σ1] calls1]|] eqn:Hrun;
    [|done].
  intros [= <- <- <-].
  apply retry_loop_attempts in Hrun as (new & -> & Hatt);
    [|done|unfold min_int; lia].
  exists e, res, σ1. done.
Qed.

Lemma executeStep_total fuel registry r step σ :
  maxAttempts (workflow r) step < max_int →
  (Z.to_nat (maxAttempts (workflow r) step) < fuel)%nat →
  is_Some (executeStep fuel registry r step σ).
Proof.
  intros HM Hfuel. unfold executeStep. cbn zeta.
  destruct (Get _ _) as [handler|]; [|eauto].
  destruct (retry_loop_total handler (deps r) _ fuel HM 1
              (new_input r step σ) (new_exec (workflow r) step)
              zero_result σ []) as [[[[e res] σ1] calls1] ->];
    [unfold min_int; lia|lia|eauto].
Qed.

Lemma executeStep_name fuel registry r step σ exec σ' calls :
  executeStep fuel registry r step σ = Some (exec, σ', calls) →
  seName exec = Name step.
Proof.
  unfold executeStep. cbn zeta. destruct (Get _ _) as [handler|].
  - destruct (retry_loop _ _ _ _ _ _ _ _ _ _) as [[[[e res] σ1] calls1]|] eqn:Hrun;
      [|done].
    intros [= <- <- <-]. simpl.
    enough (∀ fuel a input exec rs σ cs e res σ1 calls1 M,
              retry_loop fuel handler (deps r) M a input exec rs σ cs
                = Some (e, res, σ1, calls1) → seName e = seName exec) as Hn
      by apply (Hn _ _ _ _ _ _ _ _ _ _ _ _ Hrun).
    clear. induction fuel as [|fuel IH]; intros a input exec rs σ cs e res σ1 calls1 M;
      [done|].
    cbn [retry_loop]. destruct (a <=? M); [|by intros [= <- _ _ _]].
    cbn zeta. destruct (skip_set _); [by intros [= <- _ _ _]|].
    destruct (negb _); [by intros [= <- _ _ _]|].
    intros Hrun. apply IH in Hrun. rewrite Hrun. by destruct (a =? M).
  - by intros [= <- _ _].
Qed.

(** *** The loop of [Run] *)

Lemma is_finalize_existsb (steps : list WorkflowStep) step :
  step ∈ steps → is_finalize step = true → existsb is_finalize steps = true.
Proof.
  intros Hin Hf. apply existsb_exists. exists step.
  split; [by apply list_elem_of_In|done].
Qed.

Lemma run_steps_spec fuel registry r steps :
  ∀ todo acc failed σ recs failed' σ',
    (∀ s, s ∈ todo → s ∈ steps) →
    run_steps fuel registry r steps todo acc failed σ = Some (recs, failed', σ') →
    ∃ new, recs = acc ++ new ∧
      seName <$> new = take (length new) (Name <$> todo) ∧
      (failed' = true ↔ failed = true ∨ ∃ e, e ∈ new ∧ Status e = "Failed") ∧
      (existsb is_finalize steps = false →
         ∀ i e, new !! i = Some e → Status e = "Failed" → length new = S i) ∧
      (existsb is_finalize steps = true → length new = length todo).
Proof.
  induction todo as [|step todo IH]; intros acc failed σ recs failed' σ' Hsub Hrun.
  - injection Hrun as <- <- <-. exists []. rewrite app_nil_r.
    split; [done|]. split; [done|]. split; [|done].
    split; [by left|]. intros [?|(e & He & _)]; [done|by inversion He].
  - cbn [run_steps] in Hrun.
    destruct (executeStep fuel registry r step σ) as [[[stepExec σ1] cs]|] eqn:Hex;
      [|done].
    pose proof (executeStep_name _ _ _ _ _ _ _ _ Hex) as Hname.
    assert (∀ s, s ∈ todo → s ∈ steps) as Hsub'
      by (intros s Hs; apply Hsub; by right).
    destruct (String.eqb (Status stepExec) "Failed") eqn:Est.
    + apply String.eqb_eq in Est.
      destruct (negb (is_finalize step) && negb (existsb is_finalize steps))
        eqn:Ebr.
      * injection Hrun as <- <- <-. exists [stepExec].
        apply andb_true_iff in Ebr as [_ Hnf]. apply negb_true_iff in Hnf.
        split; [done|]. split; [by rewrite fmap_cons, Hname|].
        split; [split; [intros _; right; exists stepExec; split; [by left|done]|done]|].
        split; [|congruence].
        intros _ i e Hi _. by apply list_lookup_singleton_Some in Hi as [-> _].
      * apply IH in Hrun as (new & -> & Hnames & Hfail & Hstop & Hall); [|done].
        exists (stepExec :: new). rewrite <- app_assoc.
        split; [done|]. split; [cbn; by rewrite Hname, Hnames|].
        split.
        { split; [intros _; right; exists stepExec; split; [by left|done]|].
          intros _. apply Hfail. by left. }
        split; [|intros Hf; cbn; by rewrite (Hall Hf)].
        intros Hnf. rewrite Hnf in Ebr. cbn in Ebr. rewrite andb_true_r in Ebr.
        apply negb_false_iff in Ebr.
        rewrite (is_finalize_existsb steps step) in Hnf; [done| |done].
        apply Hsub. by left.
    + apply String.eqb_neq in Est.
      apply IH in Hrun as (new & -> & Hnames & Hfail & Hstop & Hall); [|done].
      exists (stepExec :: new). rewrite <- app_assoc.
      split; [done|]. split; [cbn; by rewrite Hname, Hnames|].
      split.
      { rewrite Hfail. split.
        - intros [?|(e & He & Hs)]; [by left|]. right. exists e.
          split; [by right|done].
        - intros [?|(e & [->|He]%elem_of_cons & Hs)]; [by left|done|].
          right. eauto. }
      split; [|intros Hf; cbn; by rewrite (Hall Hf)].
      intros Hnf i e Hi Hs. destruct i as [|i]; simpl in Hi.
      * injection Hi as <-. done.
      * cbn. f_equal. by eapply Hstop.
Qed.


End RunnerProofs.

(** ** Deciding the hypotheses on concrete workflows *)

Lemma deps_exist_Forall steps :
  Forall (λ s, Forall (λ d, d ∈ Name <$> steps) (Depends s)) steps →
  deps_exist steps.
Proof.
  intros Hall s d Hs Hd.
  eapply Forall_forall in Hall; [|exact Hs].
  eapply Forall_forall in Hall; [exact Hall|exact Hd].
Qed.

(** A rank that decreases along every dependency rules out cycles. *)
Lemma acyclic_rank (rank : string → nat) steps :
  Forall (λ s, Forall (λ d, rank d < rank (Name s))%nat (Depends s)) steps →
  acyclic steps.
Proof.
  intros Hall.
  assert (∀ n m, tc (depends_on steps) n m → (rank m < rank n)%nat) as Hdown.
  { assert (∀ n m, depends_on steps n m → (rank m < rank n)%nat) as Hone.
    { intros n m (s & Hs & <- & Hd).
      eapply Forall_forall in Hall; [|exact Hs].
      eapply Forall_forall in Hall; [exact Hall|exact Hd]. }
    intros n m Ht. induction Ht as [n m Hnm|n m k Hnm _ IH].
    - by apply Hone.
    - apply Hone in Hnm. lia. }
  intros n Hn. apply Hdown in Hn. lia.
Qed.

Lemma valid_visit_names w :
  NoDup (Name <$> Steps w) → valid_visit w (Name <$> Steps w).
Proof. intros Hnd. split; [done|]. done. Qed.

Lemma valid_visit_perm w visit :
  NoDup (Name <$> Steps w) → visit ≡ₚ Name <$> Steps w → valid_visit w visit.
Proof.
  intros Hnd Hperm. split; [by rewrite Hperm|]. intros n. by rewrite Hperm.
Qed.

(** The step names are exactly the keys the runtime ranges over. *)
Lemma valid_visit_keys w visit :
  valid_visit w visit ↔
  NoDup visit ∧ ∀ n, n ∈ visit ↔ is_Some (inDegree (build (Steps w)) !! n).
Proof.
  assert (∀ n, n ∈ Name <$> Steps w ↔ is_Some (inDegree (build (Steps w)) !! n))
    as Hkeys.
  { intros n. rewrite inDegree_stepMap, fmap_is_Some.
    rewrite <- not_eq_None_Some, stepMap_None.
    split; [tauto|]. intros Hn. by apply dec_stable. }
  unfold valid_visit. split; intros [Hnd Hvis]; (split; [done|]); intros n;
    by rewrite Hvis, Hkeys.
Qed.

(** ** The model at work *)

(** The examples of the specification. *)
Example Run_report :
  run_summary (Run 4 ["init"; "broken"; "finalize"] sample_registry
                 (sample_runner wf_report) empty_store)
  = Some ("Failed", [("init", "Succeeded"); ("broken", "Failed");
                     ("finalize", "Succeeded")]).
Proof. by vm_compute. Qed.

Example Run_plain :
  run_summary (Run 4 ["init"; "broken"; "finalize"] sample_registry
                 (sample_runner wf_plain) empty_store)
  = Some ("Failed", [("init", "Succeeded"); ("broken", "Failed")]).
Proof. by vm_compute. Qed.

(** Two retries: a handler that always fails is invoked three times. *)
Example executeStep_broken :
  ∃ exec σ' calls,
    executeStep 5 sample_registry (sample_runner wf_smoke) step_broken empty_store
      = Some (exec, σ', calls) ∧
    Forall retried calls ∧ length calls = 3%nat ∧ world σ' = 3%nat ∧
    Status exec = "Failed" ∧ vars σ' = {["tries" := VInt 3]}.
Proof.
  eexists _, _, _. split; [vm_compute; reflexivity|].
  split; [by repeat constructor|]. split; [done|]. split; [done|].
  split; [done|]. apply map_eq. intros k. by vm_compute.
Qed.

(** Two retries: a handler that succeeds on attempt 3 is invoked three
    times, and only its last context update reaches the context. *)
Example executeStep_flaky :
  ∃ exec σ' calls,
    executeStep 5 sample_registry (sample_runner wf_smoke) step_check empty_store
      = Some (exec, σ', calls) ∧
    length calls = 3%nat ∧ Status exec = "Succeeded" ∧
    vars σ' !! "checked" = Some (VBool true) ∧ vars σ' !! "tries" = None.
Proof. eexists _, _, _. split; [vm_compute; reflexivity|]. done. Qed.

(** * The claims *)

(** ** Dependency resolution *)

(** C1, as amended.  For every workflow whose step names are pairwise
    distinct, whose dependency relation is acyclic and whose every declared
    dependency names an existing step, [GetExecutionOrder] returns, for each
    order in which the runtime may iterate the in-degree map and given fuel
    for one turn per step, a permutation of the workflow's steps in which
    every declared dependency of a step appears at an earlier index than the
    step itself. *)
Theorem GetExecutionOrder_topological fuel visit w :
  NoDup (Name <$> Steps w) → acyclic (Steps w) → deps_exist (Steps w) →
  int_sized (Steps w) → valid_visit w visit →
  (length (Steps w) < fuel)%nat →
  ∃ order, GetExecutionOrder fuel visit w = Some (inr order) ∧
           order ≡ₚ Steps w ∧ topological order.
Proof.
  intros Hnd Hacyc Hdeps Hsz Hvis Hfuel.
  destruct (GetExecutionOrder_complete fuel visit w Hnd Hdeps Hacyc Hsz Hvis Hfuel)
    as [order Hr].
  exists order. split; [done|].
  by destruct (GetExecutionOrder_inr _ _ _ _ Hsz Hvis Hr) as (_ & _ & ? & ?).
Qed.

(** The smoke test, resolved with the map yielding finalize, init, check. *)
Lemma GetExecutionOrder_topological_witness :
  ∃ order,
    GetExecutionOrder 4 ["finalize"; "init"; "check"] wf_smoke = Some (inr order) ∧
    order ≡ₚ Steps wf_smoke ∧ topological order.
Proof.
  apply (GetExecutionOrder_topological 4 ["finalize"; "init"; "check"] wf_smoke).
  - by_compute.
  - apply (acyclic_rank
             (λ n, if decide (n = "init") then 0
                   else if decide (n = "check") then 1 else 2)%nat).
    by_compute.
  - apply deps_exist_Forall. by_compute.
  - unfold int_sized. vm_compute. discriminate.
  - apply valid_visit_names. by_compute.
  - simpl. lia.
Defined.

(** C1 as stated fails when two steps share a name: nothing is cyclic or
    undeclared in [wf_twins], yet no iteration order and no amount of fuel
    yields an order; the resolver reports a cycle. *)
Lemma GetExecutionOrder_duplicate_names :
  acyclic (Steps wf_twins) ∧ deps_exist (Steps wf_twins) ∧
  int_sized (Steps wf_twins) ∧ valid_visit wf_twins ["a"] ∧
  GetExecutionOrder 3 ["a"] wf_twins = Some (inl DependencyCycle) ∧
  ∀ fuel visit order, valid_visit wf_twins visit →
    GetExecutionOrder fuel visit wf_twins ≠ Some (inr order).
Proof.
  assert (int_sized (Steps wf_twins)) as Hsz
    by (unfold int_sized; vm_compute; discriminate).
  split; [|split; [|split; [done|split; [|split; [done|]]]]].
  - apply (acyclic_rank (λ _, 0%nat)). by_compute.
  - apply deps_exist_Forall. by_compute.
  - split; [by_compute|].
    intros n. cbn. rewrite !elem_of_cons, elem_of_nil. tauto.
  - intros fuel visit order Hvis Hr.
    destruct (GetExecutionOrder_inr _ _ _ _ Hsz Hvis Hr) as (Hnd & _).
    cbn in Hnd. apply NoDup_cons in Hnd as [Hnd _]. apply Hnd. by left.
Qed.

(** C6, as amended.  [GetExecutionOrder] returns an error rather than an
    order whenever the workflow is structurally invalid: a step depending on
    a name not present among the workflow's steps yields an
    unknown-dependency error naming a dependent step and its missing
    dependency; in a workflow whose declared dependencies all exist, any
    dependency cycle (including a step depending on itself) yields the
    cycle error; and an order, when one is returned, is never partial: it is
    a permutation of the workflow's steps. *)
Theorem GetExecutionOrder_invalid fuel visit w :
  int_sized (Steps w) → valid_visit w visit → (length (Steps w) < fuel)%nat →
  (∀ s d, s ∈ Steps w → d ∈ Depends s → d ∉ Name <$> Steps w →
     ∃ s' d', GetExecutionOrder fuel visit w
                = Some (inl (UnknownDependency (Name s') d')) ∧
              s' ∈ Steps w ∧ d' ∈ Depends s' ∧ d' ∉ Name <$> Steps w) ∧
  (deps_exist (Steps w) → ∀ n, tc (depends_on (Steps w)) n n →
     GetExecutionOrder fuel visit w = Some (inl DependencyCycle)) ∧
  (∀ order, GetExecutionOrder fuel visit w = Some (inr order) →
     deps_exist (Steps w) ∧ acyclic (Steps w) ∧
     length order = length (Steps w) ∧ order ≡ₚ Steps w).
Proof.
  intros Hsz Hvis Hfuel. split; [|split].
  - intros s d. apply GetExecutionOrder_unknown.
  - intros Hdeps n Hn. by eapply GetExecutionOrder_cycle.
  - intros order Hr.
    destruct (GetExecutionOrder_inr _ _ _ _ Hsz Hvis Hr) as (Hnd & Hd & Hperm & Ht).
    split; [done|]. split; [by eapply topological_acyclic|].
    split; [by rewrite Hperm|done].
Qed.

(** The two-step cycle of [wf_loop] is reported as a cycle. *)
Lemma GetExecutionOrder_invalid_witness :
  GetExecutionOrder 3 ["a"; "b"] wf_loop = Some (inl DependencyCycle).
Proof.
  assert (int_sized (Steps wf_loop)) as Hsz
    by (unfold int_sized; vm_compute; discriminate).
  assert (valid_visit wf_loop ["a"; "b"]) as Hvis
    by (apply valid_visit_names; by_compute).
  assert (length (Steps wf_loop) < 3)%nat as Hfuel by (simpl; lia).
  assert (deps_exist (Steps wf_loop)) as Hdeps
    by (apply deps_exist_Forall; by_compute).
  destruct (GetExecutionOrder_invalid 3 ["a"; "b"] wf_loop Hsz Hvis Hfuel)
    as (_ & Hcycle & _).
  apply (Hcycle Hdeps "a").
  apply (tc_l _ _ "b"); [|apply tc_once].
  - exists (sample_step "a" ["b"] "" 0).
    split; [apply list_elem_of_here|]. split; [done|apply list_elem_of_here].
  - exists (sample_step "b" ["a"] "" 0).
    split; [apply list_elem_of_further, list_elem_of_here|].
    split; [done|apply list_elem_of_here].
Defined.

(** C6 as stated fails where both defects meet: the only step of
    [wf_self_ghost] depends on itself, a cycle, yet the error is the
    unknown dependency, whatever the fuel and the iteration order. *)
Lemma GetExecutionOrder_cycle_and_unknown :
  tc (depends_on (Steps wf_self_ghost)) "a" "a" ∧
  ∀ fuel visit,
    GetExecutionOrder fuel visit wf_self_ghost
      = Some (inl (UnknownDependency "a" "ghost")) ∧
    GetExecutionOrder fuel visit wf_self_ghost ≠ Some (inl DependencyCycle).
Proof.
  split.
  - apply tc_once. exists (sample_step "a" ["a"; "ghost"] "" 0).
    split; [apply list_elem_of_here|]. split; [done|apply list_elem_of_here].
  - intros fuel visit.
    assert (GetExecutionOrder fuel visit wf_self_ghost
            = Some (inl (UnknownDependency "a" "ghost"))) as ->
      by (by vm_compute).
    done.
Qed.

(** What does not depend on the iteration order: the error, if any, and
    the steps an order is made of. *)
Lemma GetExecutionOrder_outcome_stable fuel visit1 visit2 w :
  int_sized (Steps w) → valid_visit w visit1 → valid_visit w visit2 →
  (length (Steps w) < fuel)%nat →
  (∃ e, GetExecutionOrder fuel visit1 w = Some (inl e) ∧
        GetExecutionOrder fuel visit2 w = Some (inl e)) ∨
  (∃ order1 order2,
     GetExecutionOrder fuel visit1 w = Some (inr order1) ∧
     GetExecutionOrder fuel visit2 w = Some (inr order2) ∧
     order1 ≡ₚ order2 ∧ topological order1 ∧ topological order2).
Proof.
  intros Hsz Hv1 Hv2 Hfuel.
  assert (∀ v order, valid_visit w v →
            GetExecutionOrder fuel v w = Some (inr order) →
            ∀ v', valid_visit w v' →
              ∃ order', GetExecutionOrder fuel v' w = Some (inr order'))
    as Hboth.
  { intros v order Hv Hr v' Hv'.
    destruct (GetExecutionOrder_inr _ _ _ _ Hsz Hv Hr) as (Hnd & Hd & Hp & Ht).
    apply GetExecutionOrder_complete; try done.
    by eapply topological_acyclic. }
  destruct (GetExecutionOrder_total fuel visit1 w Hsz Hv1 Hfuel) as [[e1|o1] Hr1];
    destruct (GetExecutionOrder_total fuel visit2 w Hsz Hv2 Hfuel) as [[e2|o2] Hr2].
  - left. exists e1. split; [done|]. rewrite Hr2. do 2 f_equal.
    revert Hr1 Hr2. unfold GetExecutionOrder. cbn zeta.
    destruct (validate _ _); [congruence|].
    destruct (kahn _ _ _ _ _); [|done]. destruct (decide _); [|done].
    destruct (kahn _ _ _ _ _); [|done]. destruct (decide _); [|done].
    congruence.
  - destruct (Hboth _ _ Hv2 Hr2 _ Hv1) as [o Ho]. congruence.
  - destruct (Hboth _ _ Hv1 Hr1 _ Hv2) as [o Ho]. congruence.
  - right. exists o1, o2. split; [done|]. split; [done|].
    destruct (GetExecutionOrder_inr _ _ _ _ Hsz Hv1 Hr1) as (_ & _ & Hp1 & Ht1).
    destruct (GetExecutionOrder_inr _ _ _ _ Hsz Hv2 Hr2) as (_ & _ & Hp2 & Ht2).
    split; [by rewrite Hp1, Hp2|done].
Qed.

(** C7: the order is not a function of the workflow alone.  The Go runtime
    may yield the keys of the in-degree map as a, b or as b, a; both are
    legal iteration orders for [wf_pair], and the resolver returns the two
    steps in the order it was handed them. *)
Theorem GetExecutionOrder_follows_map_iteration :
  valid_visit wf_pair ["a"; "b"] ∧ valid_visit wf_pair ["b"; "a"] ∧
  order_names (GetExecutionOrder 3 ["a"; "b"] wf_pair) = Some (inr ["a"; "b"]) ∧
  order_names (GetExecutionOrder 3 ["b"; "a"] wf_pair) = Some (inr ["b"; "a"]) ∧
  GetExecutionOrder 3 ["a"; "b"] wf_pair ≠ GetExecutionOrder 3 ["b"; "a"] wf_pair.
Proof.
  assert (NoDup (Name <$> Steps wf_pair)) as Hnd
    by (by_compute).
  split; [by apply valid_visit_names|].
  split; [apply valid_visit_perm; [done|]; by_compute|].
  split; [by vm_compute|]. split; [by vm_compute|].
  intros Heq. apply (f_equal order_names) in Heq.
  vm_compute in Heq. discriminate.
Qed.

(** ** Step execution *)

Lemma maxAttempts_budget w step :
  GetRetries w step + 1 ≤ max_int → maxAttempts w step = GetRetries w step + 1.
Proof.
  intros H. pose proof (GetRetries_nonneg w step).
  apply wrap_id. unfold min_int, max_int in *. lia.
Qed.

Lemma executeStep_last {World} fuel (registry : gmap string (StepHandler World))
    r step σ handler exec σ' calls :
  Get registry (GetHandlerName (workflow r) step) = Some handler →
  executeStep fuel registry r step σ = Some (exec, σ', calls) →
  (calls = [] ∧ Status exec = "") ∨
  (∃ front c e, calls = front ++ [c] ∧
     exec = record_result e (call_result c) ∧
     σ' = apply_updates (call_result c) (call_store c)).
Proof.
  intros Hget. unfold executeStep. cbn zeta. rewrite Hget.
  destruct (retry_loop _ _ _ _ _ _ _ _ _ _) as [[[[e res] σ1] calls1]|] eqn:Hrun;
    [|done].
  intros [= <- <- <-].
  apply retry_loop_last in Hrun as [(-> & -> & -> & ->)|(front & c & -> & -> & ->)].
  - by left.
  - right. by exists front, c, e.
Qed.

Lemma attempts_invoked {World} (handler : StepHandler World) d M a input exec res
    σ calls out :
  attempts handler d M a input exec res σ calls out →
  ∀ c, c ∈ calls →
    ∃ σ0, handler (call_input c) d σ0 = (call_result c, call_store c).
Proof.
  induction 1 as [| a input exec res σ c exec' _ [_ Hh] _
                  | a input exec res σ c calls out _ [_ Hh] _ _ IH];
    intros x Hx.
  - by apply elem_of_nil in Hx.
  - apply list_elem_of_singleton in Hx as ->. eauto.
  - apply elem_of_cons in Hx as [->|Hx]; [eauto|by apply IH].
Qed.

(** The log of a step whose budget is between one and the largest int
    minus one: retried attempts, then the attempt that ended the loop. *)
Lemma executeStep_trace {World} fuel (registry : gmap string (StepHandler World))
    r step σ handler exec σ' calls :
  Get registry (GetHandlerName (workflow r) step) = Some handler →
  1 ≤ maxAttempts (workflow r) step < max_int →
  executeStep fuel registry r step σ = Some (exec, σ', calls) →
  ∃ front c,
    calls = front ++ [c] ∧ Forall retried front ∧
    (∀ i x, calls !! i = Some x →
       Attempt (call_input x) = Z.of_nat i + 1 ∧
       ∃ σ0, handler (call_input x) (deps r) σ0 = (call_result x, call_store x)) ∧
    Z.of_nat (length calls) ≤ maxAttempts (workflow r) step ∧
    ((skip_set (call_result c) = true ∧ Status exec = "Skipped") ∨
     (skip_set (call_result c) = false ∧ HasErrors (call_result c) = false ∧
      Status exec = "Succeeded") ∨
     (retried c ∧ Z.of_nat (length calls) = maxAttempts (workflow r) step ∧
      Status exec = "Failed")).
Proof.
  intros Hget [H1 HM] Hex.
  destruct (executeStep_found _ _ _ _ _ _ _ _ _ Hget HM Hex)
    as (e & res & σ1 & Hatt & -> & ->).
  pose proof (attempts_inputs _ _ _ _ _ _ _ _ _ _ Hatt) as Hinp.
  pose proof (attempts_invoked _ _ _ _ _ _ _ _ _ _ Hatt) as Hinv.
  apply attempts_shape in Hatt
    as [(_ & ? & _)|(_ & front & c & -> & Hfront & Hexit & -> & ->)]; [lia|].
  destruct (Hinp (length front) c) as (Hatt_c & Hle_c & _).
  { by rewrite lookup_app_r, Nat.sub_diag by lia. }
  exists front, c. split; [done|]. split; [done|]. split; [|split].
  - intros i x Hi. destruct (Hinp i x Hi) as (-> & _ & _). split; [lia|].
    apply Hinv. by eapply list_elem_of_lookup_2.
  - rewrite length_app. simpl. lia.
  - rewrite length_app. cbn.
    inversion Hexit as [Hs|Hs He|Hr HA]; subst; cbn; [tauto|tauto|].
    right. right. split; [done|]. split; [lia|done].
Qed.

(** C2, as amended.  For every step with attempt budget N+1 (N retries,
    N+1 below the largest int) whose handler is registered, [executeStep]
    returns, and: if on every attempt the handler's outcome contains an
    error-severity message and does not set the skip directive, the handler
    was invoked exactly N+1 times and the final status is Failed; if the
    outcome of attempt K+1 is the first to carry no error-severity message,
    and it does not set the skip directive, the handler was invoked exactly
    K+1 times, K+1 is within the budget, every earlier attempt was retried,
    and the final status is Succeeded.  The same in terms of the handler
    alone: one that reports an error and no skip whatever it is given is
    invoked N+1 times and the step is Failed; one that does so below
    attempt K and reports neither error nor skip at attempt K, K within
    the budget, is invoked K times and the step is Succeeded. *)
Theorem executeStep_retries {World} fuel (registry : gmap string (StepHandler World))
    r step σ handler N :
  Get registry (GetHandlerName (workflow r) step) = Some handler →
  GetRetries (workflow r) step = N → N + 1 < max_int →
  (Z.to_nat (N + 1) < fuel)%nat →
  ∃ exec σ' calls,
    executeStep fuel registry r step σ = Some (exec, σ', calls) ∧
    ((∀ c, c ∈ calls → retried c) →
       Z.of_nat (length calls) = N + 1 ∧ Status exec = "Failed") ∧
    (∀ K c, calls !! K = Some c →
       skip_set (call_result c) = false → HasErrors (call_result c) = false →
       length calls = S K ∧ Z.of_nat (S K) ≤ N + 1 ∧
       (∀ j c', (j < K)%nat → calls !! j = Some c' → retried c') ∧
       Status exec = "Succeeded") ∧
    ((∀ input σ0, skip_set (handler input (deps r) σ0).1 = false ∧
                  HasErrors (handler input (deps r) σ0).1 = true) →
       Z.of_nat (length calls) = N + 1 ∧ Status exec = "Failed") ∧
    (∀ K, 1 ≤ K ≤ N + 1 →
       (∀ input σ0, Attempt input < K →
          skip_set (handler input (deps r) σ0).1 = false ∧
          HasErrors (handler input (deps r) σ0).1 = true) →
       (∀ input σ0, Attempt input = K →
          skip_set (handler input (deps r) σ0).1 = false ∧
          HasErrors (handler input (deps r) σ0).1 = false) →
       Z.of_nat (length calls) = K ∧ Status exec = "Succeeded").
Proof.
  intros Hget HN HM Hfuel.
  pose proof (GetRetries_nonneg (workflow r) step) as Hnn.
  assert (maxAttempts (workflow r) step = N + 1) as HMA
    by (rewrite <- HN; apply maxAttempts_budget; lia).
  destruct (executeStep_total fuel registry r step σ) as [[[exec σ'] calls] Hex];
    [lia|lia|].
  exists exec, σ', calls. split; [done|].
  destruct (executeStep_trace _ _ _ _ _ _ _ _ _ Hget ltac:(lia) Hex)
    as (front & c & -> & Hfront & Hinp & Hlen & Hexit).
  rewrite HMA in Hlen, Hexit. rewrite length_app in Hlen, Hexit |- *.
  cbn [length] in Hlen, Hexit |- *.
  assert (∀ x, x ∈ front ++ [c] →
            ∃ input σ0, Attempt input ≤ Z.of_nat (length front) + 1 ∧
              skip_set (handler input (deps r) σ0).1 = skip_set (call_result x) ∧
              HasErrors (handler input (deps r) σ0).1 = HasErrors (call_result x))
    as Hbeh.
  { intros x [i Hi]%list_elem_of_lookup_1.
    destruct (Hinp i x Hi) as (Ha & σ0 & Hh).
    exists (call_input x), σ0. rewrite Hh. split; [|done].
    apply lookup_lt_Some in Hi. rewrite length_app in Hi. simpl in Hi. lia. }
  assert (c ∈ front ++ [c]) as Hc by (apply elem_of_app; right; by left).
  assert (∀ K c', (front ++ [c]) !! K = Some c' →
            skip_set (call_result c') = false → HasErrors (call_result c') = false →
            K = length front ∧ c' = c) as Hlast.
  { intros K c' HK Hs He.
    destruct (decide (K < length front)%nat) as [Hlt|Hge].
    - rewrite lookup_app_l in HK by done.
      eapply Forall_lookup_1 in Hfront; [|exact HK].
      destruct Hfront. congruence.
    - apply lookup_lt_Some in HK as HlenK. rewrite length_app in HlenK.
      simpl in HlenK. assert (K = length front) as -> by lia.
      rewrite lookup_app_r, Nat.sub_diag in HK by lia. by injection HK as <-. }
  split; [|split; [|split]].
  - intros Hall. destruct (Hall c Hc) as [Hs He].
    destruct Hexit as [[? _]|[(_ & ? & _)|(_ & ? & ?)]]; [congruence|congruence|].
    split; [lia|done].
  - intros K c' HK Hs He. destruct (Hlast K c' HK Hs He) as [-> ->].
    split; [lia|]. split; [lia|]. split.
    + intros j c' Hj Hc'. rewrite lookup_app_l in Hc' by done.
      by eapply Forall_lookup_1 in Hfront.
    + destruct Hexit as [[? _]|[(_ & _ & ?)|([_ ?] & _)]]; [congruence|done|congruence].
  - intros Hfail. destruct (Hbeh c Hc) as (input & σ0 & _ & Hs & He).
    destruct (Hfail input σ0) as [Hs' He']. rewrite Hs in Hs'. rewrite He in He'.
    destruct Hexit as [[? _]|[(_ & ? & _)|(_ & ? & ?)]]; [congruence|congruence|].
    split; [lia|done].
  - intros K HK Hbelow Hat.
    assert (K ≤ Z.of_nat (length front) + 1) as Hreach.
    { destruct (decide (K ≤ Z.of_nat (length front) + 1)) as [|Hlt]; [done|].
      destruct (Hinp (length front) c) as (Ha & σ0 & Hh).
      { by rewrite lookup_app_r, Nat.sub_diag by lia. }
      destruct (Hbelow (call_input c) σ0 ltac:(lia)) as [Hs He].
      rewrite Hh in Hs, He. cbn in Hs, He.
      destruct Hexit as [[? _]|[(_ & ? & _)|(_ & ? & _)]]; [congruence|congruence|lia]. }
    destruct ((front ++ [c]) !! Z.to_nat (K - 1)) as [x|] eqn:Hx.
    2:{ apply lookup_ge_None in Hx. rewrite length_app in Hx. simpl in Hx. lia. }
    destruct (Hinp _ x Hx) as (Ha & σ0 & Hh).
    destruct (Hat (call_input x) σ0 ltac:(lia)) as [Hs He].
    rewrite Hh in Hs, He. cbn in Hs, He.
    destruct (Hlast _ x Hx Hs He) as [HKf ->].
    split; [lia|].
    destruct Hexit as [[? _]|[(_ & _ & ?)|([_ ?] & _)]]; [congruence|done|congruence].
Qed.

(** The check step of the smoke test: two retries, a handler that fails
    twice and then succeeds. *)
Lemma executeStep_retries_witness :
  ∃ exec σ' calls,
    executeStep 4 sample_registry (sample_runner wf_smoke) step_check empty_store
      = Some (exec, σ', calls) ∧
    Z.of_nat (length calls) = 3 ∧ Status exec = "Succeeded".
Proof.
  destruct (executeStep_retries 4 sample_registry (sample_runner wf_smoke)
              step_check empty_store handle_flaky 2)
    as (exec & σ' & calls & Hex & _ & _ & _ & Hflaky).
  - reflexivity.
  - reflexivity.
  - unfold max_int. lia.
  - simpl. lia.
  - exists exec, σ', calls. split; [exact Hex|].
    apply (Hflaky 3); [lia| |].
    + intros input σ0 Hlt. unfold handle_flaky. cbn [fst].
      apply Z.ltb_lt in Hlt. rewrite Hlt. split; reflexivity.
    + intros input σ0 Heq. unfold handle_flaky. cbn [fst].
      rewrite Heq. split; reflexivity.
Defined.

(** C2 as stated fails for a handler that reports an error and asks to be
    skipped: with two retries configured and an error-severity message on
    every attempt made, the handler is invoked once, not three times, and
    the status is Skipped, not Failed. *)
Lemma executeStep_error_and_skip :
  ∃ exec σ' calls,
    executeStep 4 sample_registry (sample_runner wf_smoke) step_confused empty_store
      = Some (exec, σ', calls) ∧
    GetRetries wf_smoke step_confused = 2 ∧
    (∀ c, c ∈ calls → HasErrors (call_result c) = true) ∧
    length calls = 1%nat ∧ Status exec = "Skipped".
Proof.
  eexists _, _, _. split; [vm_compute; reflexivity|].
  split; [done|]. split; [|done].
  intros c ->%list_elem_of_singleton. done.
Qed.




(** C8, as amended.  The retry count of a step is its own override if
    positive, else the workflow's default if positive, else zero, and its
    attempt budget is that count plus one in [int] arithmetic; whenever the
    budget is below the largest int it is at least one and, the handler
    being registered, [executeStep] returns having invoked the handler at
    least once and at most budget times, and the input of the i-th
    invocation carries the attempt number i, counted from 1, and, as
    [TotalRetries], the retry count: one less than the attempts allowed. *)
Theorem executeStep_attempt_budget {World} fuel
    (registry : gmap string (StepHandler World)) r step σ handler :
  Get registry (GetHandlerName (workflow r) step) = Some handler →
  GetRetries (workflow r) step + 1 < max_int →
  (Z.to_nat (maxAttempts (workflow r) step) < fuel)%nat →
  GetRetries (workflow r) step
    = (if 0 <? Retries step then Retries step
       else if 0 <? DefaultRetries (workflow r) then DefaultRetries (workflow r)
       else 0) ∧
  maxAttempts (workflow r) step = GetRetries (workflow r) step + 1 ∧
  1 ≤ maxAttempts (workflow r) step ∧
  ∃ exec σ' calls,
    executeStep fuel registry r step σ = Some (exec, σ', calls) ∧
    (1 ≤ length calls)%nat ∧
    Z.of_nat (length calls) ≤ maxAttempts (workflow r) step ∧
    ∀ i c, calls !! i = Some c →
      Attempt (call_input c) = Z.of_nat i + 1 ∧
      TotalRetries (call_input c) = GetRetries (workflow r) step ∧
      TotalRetries (call_input c) = maxAttempts (workflow r) step - 1.
Proof.
  intros Hget HM Hfuel.
  pose proof (GetRetries_nonneg (workflow r) step) as Hnn.
  pose proof (maxAttempts_budget (workflow r) step ltac:(lia)) as HMA.
  split; [done|]. split; [done|]. split; [lia|].
  destruct (executeStep_total fuel registry r step σ) as [[[exec σ'] calls] Hex];
    [lia|done|].
  exists exec, σ', calls. split; [done|].
  destruct (executeStep_found _ _ _ _ _ _ _ _ _ Hget ltac:(lia) Hex)
    as (e & res & σ1 & Hatt & -> & ->).
  pose proof (attempts_inputs _ _ _ _ _ _ _ _ _ _ Hatt) as Hinp.
  apply attempts_shape in Hatt
    as [(_ & ? & _)|(_ & front & c & -> & _ & _ & _ & _)]; [lia|].
  rewrite length_app. simpl. split; [lia|]. split.
  - destruct (Hinp (length front) c) as (Ha & Hle & _).
    { by rewrite lookup_app_r, Nat.sub_diag by lia. }
    lia.
  - intros i x Hi. destruct (Hinp i x Hi) as (-> & _ & ->). simpl.
    split; [lia|]. split; [done|lia].
Qed.

(** The check step of the smoke test: two retries, a budget of three. *)
Lemma executeStep_attempt_budget_witness :
  GetRetries wf_smoke step_check = 2 ∧
  maxAttempts wf_smoke step_check = 3 ∧
  ∃ exec σ' calls,
    executeStep 4 sample_registry (sample_runner wf_smoke) step_check empty_store
      = Some (exec, σ', calls) ∧
    ∀ i c, calls !! i = Some c →
      Attempt (call_input c) = Z.of_nat i + 1 ∧
      TotalRetries (call_input c) = 2.
Proof.
  destruct (executeStep_attempt_budget 4 sample_registry (sample_runner wf_smoke)
              step_check empty_store handle_flaky)
    as (_ & _ & _ & exec & σ' & calls & Hex & _ & _ & Hinp).
  - reflexivity.
  - vm_compute. reflexivity.
  - vm_compute. lia.
  - split; [reflexivity|]. split; [reflexivity|].
    exists exec, σ', calls. split; [exact Hex|].
    intros i c Hi. destruct (Hinp i c Hi) as (Ha & Ht & _).
    split; [exact Ha|exact Ht].
Defined.

(** C8 as stated fails on the second half: with two retries configured
    the handler may be invoked three times, and the input of every
    invocation carries 2, the retry count, in [TotalRetries]; no field
    carries the three attempts allowed. *)
Lemma executeStep_input_carries_retries :
  ∃ exec σ' calls,
    executeStep 5 sample_registry (sample_runner wf_smoke) step_broken empty_store
      = Some (exec, σ', calls) ∧
    maxAttempts wf_smoke step_broken = 3 ∧
    (Attempt ∘ call_input) <$> calls = [1; 2; 3] ∧
    (TotalRetries ∘ call_input) <$> calls = [2; 2; 2] ∧
    ∃ c, calls !! 0%nat = Some c ∧
         TotalRetries (call_input c) ≠ maxAttempts wf_smoke step_broken.
Proof.
  eexists _, _, _. split; [vm_compute; reflexivity|].
  split; [reflexivity|]. split; [reflexivity|]. split; [reflexivity|].
  eexists. split; [reflexivity|]. vm_compute. discriminate.
Qed.

(** C9.  When the handler lookup for a step fails, [executeStep] returns,
    whatever the fuel, a record with status Failed without invoking any
    handler; the store, and with it the shared execution context, is
    returned unchanged, and the record carries no messages and no output,
    only the error text naming the handler. *)
Theorem executeStep_handler_not_found {World} fuel
    (registry : gmap string (StepHandler World)) r step σ :
  Get registry (GetHandlerName (workflow r) step) = None →
  ∃ exec,
    executeStep fuel registry r step σ = Some (exec, σ, []) ∧
    Status exec = "Failed" ∧ seMessages exec = [] ∧ seOutput exec = ∅ ∧
    Error exec = "handler not found: " +:+ GetHandlerName (workflow r) step ∧
    seName exec = Name step.
Proof.
  intros Hget. eexists. split; [by apply executeStep_not_found|]. done.
Qed.

(** No handler is registered for the step named missing. *)
Lemma executeStep_handler_not_found_witness :
  ∃ exec,
    executeStep 0 sample_registry (sample_runner wf_smoke) step_missing empty_store
      = Some (exec, empty_store, []) ∧
    Status exec = "Failed" ∧ seMessages exec = [] ∧ seOutput exec = ∅ ∧
    Error exec = "handler not found: smoke-test-missing" ∧
    seName exec = "missing".
Proof.
  apply (executeStep_handler_not_found 0 sample_registry (sample_runner wf_smoke)
           step_missing empty_store).
  reflexivity.
Defined.

(** With a budget from one up to the largest int minus one, a returned
    record has one of the three statuses. *)
Lemma executeStep_status_set {World} fuel
    (registry : gmap string (StepHandler World)) r step σ exec σ' calls :
  1 ≤ maxAttempts (workflow r) step < max_int →
  executeStep fuel registry r step σ = Some (exec, σ', calls) →
  Status exec = "Succeeded" ∨ Status exec = "Failed" ∨ Status exec = "Skipped".
Proof.
  intros [H1 HM] Hex.
  destruct (Get registry (GetHandlerName (workflow r) step)) as [handler|] eqn:Hget.
  - destruct (executeStep_found _ _ _ _ _ _ _ _ _ Hget HM Hex)
      as (e & res & σ1 & Hatt & -> & ->).
    apply attempts_shape in Hatt
      as [(_ & ? & _)|(_ & front & c & -> & _ & Hexit & _ & _)]; [lia|].
    cbn. inversion Hexit; subst; cbn; tauto.
  - rewrite executeStep_not_found in Hex by done. injection Hex as <- _ _.
    cbn. tauto.
Qed.

(** C10: the status can be left unset.  With the largest retry count an
    [int] holds, the attempt budget [GetRetries + 1] wraps around to the
    smallest int; the loop body never runs, although the handler is
    registered, and the record returned has the empty status.  [Run]
    appends that record and reports the run as Succeeded. *)
Theorem executeStep_status_unset :
  Get sample_registry (GetHandlerName wf_max_retries step_max_retries)
    = Some handle_ok ∧
  GetRetries wf_max_retries step_max_retries = max_int ∧
  maxAttempts wf_max_retries step_max_retries = min_int ∧
  (∀ fuel, (0 < fuel)%nat →
     ∃ exec,
       executeStep fuel sample_registry (sample_runner wf_max_retries)
         step_max_retries empty_store = Some (exec, empty_store, []) ∧
       Status exec = "" ∧
       Status exec ≠ "Succeeded" ∧ Status exec ≠ "Failed" ∧
       Status exec ≠ "Skipped") ∧
  run_summary (Run 2 ["init"] sample_registry (sample_runner wf_max_retries)
                 empty_store)
    = Some ("Succeeded", [("init", "")]).
Proof.
  split; [reflexivity|]. split; [reflexivity|]. split; [reflexivity|].
  split; [|reflexivity].
  intros [|fuel] Hfuel; [lia|].
  eexists. split; [vm_compute; reflexivity|]. done.
Qed.



(** ** The run *)




(** * Further properties *)

(** ** The registry *)

Lemma register_all_snoc {World} (registry : gmap string (StepHandler World)) l p :
  register_all registry (l ++ [p]) =
  match register_all registry l with
  | Some reg => Register reg p.1 p.2
  | None => None
  end.
Proof. unfold register_all. by rewrite foldl_snoc. Qed.

Lemma register_all_inv {World} (l : list (string * StepHandler World)) reg :
  register_all ∅ l = Some reg → NoDup l.*1 ∧ reg = list_to_map l.
Proof.
  revert reg. induction l as [|[n h] l IH] using rev_ind; intros reg.
  - intros [= <-]. split; [constructor|done].
  - rewrite register_all_snoc. destruct (register_all ∅ l) as [r|]; [|done].
    destruct (IH r eq_refl) as [Hnd ->]. unfold Register. cbn [fst snd].
    destruct (list_to_map l !! n) eqn:Hn; [done|]. intros [= <-].
    apply not_elem_of_list_to_map in Hn.
    split; [|by rewrite list_to_map_snoc].
    rewrite fmap_app. apply NoDup_app. split; [done|].
    split; [|apply NoDup_singleton].
    intros x Hx ->%list_elem_of_singleton. done.
Qed.

Lemma register_all_NoDup {World} (l : list (string * StepHandler World)) :
  NoDup l.*1 → register_all ∅ l = Some (list_to_map l).
Proof.
  induction l as [|[n h] l IH] using rev_ind; [done|].
  rewrite fmap_app. intros (Hnd & Hdisj & _)%NoDup_app.
  rewrite register_all_snoc, IH by done. unfold Register. cbn [fst snd].
  assert (n ∉ l.*1) as Hn.
  { intros Hin. apply (Hdisj n Hin). by left. }
  rewrite (proj1 (not_elem_of_list_to_map _ _) Hn).
  by rewrite list_to_map_snoc.
Qed.

(** X1.  A sequence of registrations into the empty registry goes through
    exactly when the names are pairwise distinct; the registry then resolves
    each name to the handler registered under it and to nothing else,
    [MustGet] panics exactly on the names never registered, and the count is
    one handler per registration.  With a repeated name the sequence
    panics. *)
Theorem register_all_distinct {World} (l : list (string * StepHandler World)) :
  (NoDup l.*1 →
     ∃ reg, register_all ∅ l = Some reg ∧
       (∀ n h, Get reg n = Some h ↔ (n, h) ∈ l) ∧
       (∀ n h, MustGet reg n = Some h ↔ (n, h) ∈ l) ∧
       (∀ n, MustGet reg n = None ↔ n ∉ l.*1) ∧
       HandlerCount reg = length l) ∧
  (¬ NoDup l.*1 → register_all ∅ l = None).
Proof.
  split.
  - intros Hnd. exists (list_to_map l). split; [by apply register_all_NoDup|].
    assert (∀ n, MustGet (list_to_map l : gmap string (StepHandler World)) n
                 = Get (list_to_map l) n) as Hmust.
    { intros n. unfold MustGet. by destruct (Get _ n). }
    split; [|split; [|split]].
    + intros n h. unfold Get. by rewrite elem_of_list_to_map.
    + intros n h. rewrite Hmust. unfold Get. by rewrite elem_of_list_to_map.
    + intros n. rewrite Hmust. unfold Get. symmetry. apply not_elem_of_list_to_map.
    + unfold HandlerCount. by apply map_size_list_to_map.
  - intros Hdup. destruct (register_all ∅ l) as [reg|] eqn:Hr; [|done].
    by apply register_all_inv in Hr as [? _].
Qed.

Lemma collect_names (visit : list string) :
  foldl (λ names name, names ++ [name]) [] visit = visit.
Proof.
  enough (∀ acc : list string,
            foldl (λ names name, names ++ [name]) acc visit = acc ++ visit) as H
    by apply (H []).
  induction visit as [|n visit IH]; intros acc; cbn [foldl].
  - by rewrite app_nil_r.
  - by rewrite IH, <- app_assoc.
Qed.

(** X2.  [ListHandlers] returns the registered names, each once, in
    increasing order, as many as [HandlerCount] counts, and the same list
    whatever order the runtime ranges over the registry in. *)
Theorem ListHandlers_sorted {World} (registry : gmap string (StepHandler World))
    visit :
  valid_range registry visit →
  Sorted String.le (ListHandlers visit) ∧ NoDup (ListHandlers visit) ∧
  (∀ n, n ∈ ListHandlers visit ↔ is_Some (Get registry n)) ∧
  length (ListHandlers visit) = HandlerCount registry ∧
  ∀ visit', valid_range registry visit' → ListHandlers visit' = ListHandlers visit.
Proof.
  intros [Hnd Hkeys]. unfold ListHandlers. rewrite collect_names.
  pose proof (merge_sort_Permutation String.le visit) as Hperm.
  split; [apply (Sorted_merge_sort _)|]. split; [by rewrite Hperm|].
  split; [intros n; by rewrite Hperm|]. split.
  - rewrite Hperm. unfold HandlerCount. rewrite <- length_map_to_list.
    rewrite <- (length_fmap fst (map_to_list registry)).
    apply Permutation_length, NoDup_Permutation;
      [done|apply NoDup_fst_map_to_list|].
    intros n. rewrite Hkeys, list_elem_of_fmap. split.
    + intros [h Hh]. exists (n, h). split; [done|]. by apply elem_of_map_to_list.
    + intros ([n' h] & -> & Hin). apply elem_of_map_to_list in Hin. eauto.
  - intros visit' [Hnd' Hkeys']. rewrite collect_names.
    apply (Sorted_unique String.le); [apply (Sorted_merge_sort _)..|].
    rewrite !merge_sort_Permutation. apply NoDup_Permutation; [done..|].
    intros n. by rewrite Hkeys, Hkeys'.
Qed.

(** The three handlers of the smoke test, ranged over in two orders. *)
Lemma ListHandlers_sorted_witness :
  ListHandlers ["smoke-test-init"; "smoke-test-finalize"; "smoke-test-check"]
  = ListHandlers ["smoke-test-check"; "smoke-test-init"; "smoke-test-finalize"] ∧
  ListHandlers ["smoke-test-check"; "smoke-test-init"; "smoke-test-finalize"]
  = ["smoke-test-check"; "smoke-test-finalize"; "smoke-test-init"].
Proof.
  assert (valid_range (list_to_map [("smoke-test-init", handle_ok);
                                     ("smoke-test-check", handle_flaky);
                                     ("smoke-test-finalize", handle_ok)]
                         : gmap string (StepHandler nat))
            ["smoke-test-check"; "smoke-test-init"; "smoke-test-finalize"]) as Hv.
  { split; [by_compute|]. intros n. rewrite !elem_of_cons, elem_of_nil.
    split.
    - intros [->|[->|[->|[]]]]; by_compute.
    - intros [h Hh].
      destruct (decide (n = "smoke-test-init")) as [->|?]; [tauto|].
      destruct (decide (n = "smoke-test-check")) as [->|?]; [tauto|].
      destruct (decide (n = "smoke-test-finalize")) as [->|?]; [tauto|].
      exfalso. cbn in Hh. rewrite !lookup_insert_ne in Hh by done.
      by rewrite lookup_empty in Hh. }
  destruct (ListHandlers_sorted _ _ Hv) as (_ & _ & _ & _ & Hany).
  split; [|by vm_compute].
  apply Hany. split; [by_compute|]. intros n. destruct Hv as [_ <-].
  rewrite !elem_of_cons. tauto.
Defined.

(** ** Handler names and retry counts *)

(** X3.  Within one workflow two steps resolve to the same handler name
    exactly when they have the same step name, with a handler prefix as
    without one. *)
Theorem GetHandlerName_inj w step1 step2 :
  GetHandlerName w step1 = GetHandlerName w step2 ↔ Name step1 = Name step2.
Proof.
  unfold GetHandlerName. split.
  - destruct (decide (HandlerPrefix w ≠ "")); intros H;
      by do 2 apply (inj (String.app _)) in H.
  - by intros ->.
Qed.

(** ** Step results *)




(** ** What a handler is given *)

Lemma chained_input {World} (handler : StepHandler World) d input input' σ calls :
  (∀ a (τ : Store World), set_Attempt input' a τ = set_Attempt input a τ) →
  chained handler d input' σ calls → chained handler d input σ calls.
Proof.
  intros Heq. revert σ. induction calls as [|c calls IH]; intros σ; [done|].
  cbn. intros ([a Ha] & Hh & Hrest). split; [|split; [done|by apply IH]].
  exists a. by rewrite <- Heq.
Qed.

Lemma chained_app {World} (handler : StepHandler World) d input σ calls c :
  chained handler d input σ (calls ++ [c]) →
  chained handler d input σ calls.
Proof.
  revert σ. induction calls as [|x calls IH]; intros σ; [done|].
  cbn. intros (Ha & Hh & Hrest). split; [done|]. split; [done|by apply IH].
Qed.

(** Whatever the budget, the log of the loop is a chain of invocations. *)
Lemma retry_loop_chained {World} (handler : StepHandler World) d M fuel :
  ∀ a input exec res σ calls exec' res' σ' calls',
    retry_loop fuel handler d M a input exec res σ calls
      = Some (exec', res', σ', calls') →
    ∃ new, calls' = calls ++ new ∧ chained handler d input σ new.
Proof.
  induction fuel as [|fuel IH];
    intros a input exec res σ calls exec' res' σ' calls' Hrun; [done|].
  cbn [retry_loop] in Hrun.
  destruct (a <=? M); [|injection Hrun as <- <- <- <-; exists [];
                         by rewrite app_nil_r].
  cbn zeta in Hrun.
  set (input' := set_Attempt input a σ) in *.
  set (c := {| call_input := input'; call_result := (handler input' d σ).1;
               call_store := (handler input' d σ).2 |}) in *.
  assert (chained handler d input σ [c]) as Hone.
  { cbn. split; [by exists a|]. split; [|done]. by destruct (handler input' d σ). }
  destruct (skip_set _); [injection Hrun as <- <- <- <-; by exists [c]|].
  destruct (negb _); [injection Hrun as <- <- <- <-; by exists [c]|].
  apply IH in Hrun as (new & -> & Hnew).
  exists (c :: new). split; [by rewrite <- app_assoc|].
  destruct Hone as (Ha & Hh & _). cbn. split; [done|]. split; [done|].
  by apply (chained_input _ _ input input').
Qed.

Lemma chained_facts {World} (handler : StepHandler World) d input σ calls :
  chained handler d input σ calls →
  (∀ c, c ∈ calls →
     StepName (call_input c) = StepName input ∧
     TaskID (call_input c) = TaskID input ∧
     WorkflowName (call_input c) = WorkflowName input ∧
     TotalRetries (call_input c) = TotalRetries input ∧
     inParams (call_input c) = inParams input ∧
     WorkflowResult (call_input c) = WorkflowResult input) ∧
  (∀ c, calls !! 0%nat = Some c → inVars (call_input c) = vars σ) ∧
  (∀ i c c', calls !! i = Some c → calls !! S i = Some c' →
     inVars (call_input c') = vars (call_store c)).
Proof.
  revert σ. induction calls as [|x calls IH]; intros σ Hch.
  - split; [intros c Hc; by apply elem_of_nil in Hc|]. split; [done|done].
  - cbn in Hch. destruct Hch as ([a Ha] & Hh & Hrest).
    destruct (IH _ Hrest) as (Hfields & Hfirst & Hnext).
    split; [|split].
    + intros c [->|Hc]%elem_of_cons; [by rewrite Ha|by apply Hfields].
    + intros c [= <-]. by rewrite Ha.
    + intros i c c' Hi Hi'. destruct i as [|i]; cbn in Hi, Hi'.
      * injection Hi as <-. by apply Hfirst.
      * by eapply Hnext.
Qed.

Lemma executeStep_chained {World} fuel (registry : gmap string (StepHandler World))
    r step σ handler exec σ' calls :
  Get registry (GetHandlerName (workflow r) step) = Some handler →
  executeStep fuel registry r step σ = Some (exec, σ', calls) →
  chained handler (deps r) (new_input r step σ) σ calls.
Proof.
  intros Hget. unfold executeStep. cbn zeta. rewrite Hget.
  destruct (retry_loop _ _ _ _ _ _ _ _ _ _) as [[[[e res] σ1] calls1]|] eqn:Hrun;
    [|done].
  intros [= <- <- <-].
  by apply retry_loop_chained in Hrun as (new & -> & Hch).
Qed.

Lemma mergeParams_union (r : LocalRunner) stepParams :
  mergeParams r stepParams = stepParams ∪ params r.
Proof.
  unfold mergeParams. rewrite !assign_all_union.
  by rewrite (right_id_L ∅ (∪)).
Qed.



(** X6.  The first attempt of a step sees the shared context as it stood
    when the step began, and each retry sees it as the previous attempt's
    handler left it: the context updates an attempt asks for are not
    applied between attempts.  When the handlers leave the context alone,
    every attempt of the step sees the very context the step began with. *)
Theorem executeStep_attempts_see {World} fuel
    (registry : gmap string (StepHandler World)) r step σ handler exec σ' calls :
  Get registry (GetHandlerName (workflow r) step) = Some handler →
  executeStep fuel registry r step σ = Some (exec, σ', calls) →
  (∀ c, calls !! 0%nat = Some c → inVars (call_input c) = vars σ) ∧
  (∀ i c c', calls !! i = Some c → calls !! S i = Some c' →
     inVars (call_input c') = vars (call_store c)) ∧
  ((∀ c, c ∈ calls → vars (call_store c) = vars σ) →
     ∀ c k, c ∈ calls → GetVar (call_input c) k = default VNil (vars σ !! k)).
Proof.
  intros Hget Hex.
  destruct (chained_facts _ _ _ _ _ (executeStep_chained _ _ _ _ _ _ _ _ _ Hget Hex))
    as (_ & Hfirst & Hnext).
  split; [done|]. split; [done|].
  intros Hframe c k [i Hi]%list_elem_of_lookup_1. unfold GetVar.
  destruct i as [|i]; [by rewrite (Hfirst c Hi)|].
  destruct (calls !! i) as [c0|] eqn:Hi0.
  - rewrite (Hnext i c0 c Hi0 Hi), Hframe; [done|].
    by eapply list_elem_of_lookup_2.
  - apply lookup_ge_None in Hi0. apply lookup_lt_Some in Hi. lia.
Qed.

(** The failing handler asks for the key tries on each attempt; none of its
    three attempts sees it. *)
Lemma executeStep_attempts_see_witness :
  ∃ exec σ' calls,
    executeStep 5 sample_registry (sample_runner wf_smoke) step_broken empty_store
      = Some (exec, σ', calls) ∧ length calls = 3%nat ∧
    (∀ c, c ∈ calls → GetVar (call_input c) "tries" = VNil) ∧
    vars σ' !! "tries" = Some (VInt 3).
Proof.
  destruct (executeStep 5 sample_registry (sample_runner wf_smoke) step_broken
              empty_store) as [[[exec σ'] calls]|] eqn:Hex;
    [|vm_compute in Hex; discriminate].
  exists exec, σ', calls. split; [reflexivity|].
  destruct (executeStep_attempts_see 5 sample_registry (sample_runner wf_smoke)
              step_broken empty_store handle_failing exec σ' calls eq_refl Hex)
    as (_ & _ & Hsame).
  split; [vm_compute in Hex; injection Hex as _ _ <-; reflexivity|]. split.
  - intros c Hc. rewrite Hsame; [reflexivity| |exact Hc].
    vm_compute in Hex. injection Hex as _ _ <-.
    intros c' Hc'. repeat (apply elem_of_cons in Hc' as [->|Hc']; [reflexivity|]).
    by apply elem_of_nil in Hc'.
  - vm_compute in Hex. injection Hex as _ <- _. reflexivity.
Defined.

(** ** What a record says *)

(** Whatever the budget, the status the loop leaves agrees with the last
    result it got. *)
Lemma retry_loop_outcome {World} (handler : StepHandler World) d M fuel :
  ∀ a input exec res σ calls exec' res' σ' calls',
    Error exec = "" →
    Status exec = "" ∨
      (Status exec = "Failed" ∧ skip_set res = false ∧ HasErrors res = true) →
    retry_loop fuel handler d M a input exec res σ calls
      = Some (exec', res', σ', calls') →
    seName exec' = seName exec ∧ seHandler exec' = seHandler exec ∧
    ((Status exec' = "Skipped" ∧ skip_set res' = true ∧
      Error exec' = skip_reason res') ∨
     (Status exec' = "Succeeded" ∧ skip_set res' = false ∧
      HasErrors res' = false ∧ Error exec' = "") ∨
     (Status exec' = "Failed" ∧ skip_set res' = false ∧
      HasErrors res' = true ∧ Error exec' = "") ∨
     (Status exec' = "" ∧ Error exec' = "")).
Proof.
  induction fuel as [|fuel IH];
    intros a input exec res σ calls exec' res' σ' calls' Herr Hst Hrun; [done|].
  cbn [retry_loop] in Hrun. destruct (a <=? M).
  2:{ injection Hrun as <- <- <- <-. split; [done|]. split; [done|].
      destruct Hst as [?|(? & ? & ?)]; tauto. }
  cbn zeta in Hrun.
  destruct (skip_set (handler (set_Attempt input a σ) d σ).1) eqn:Eskip.
  { injection Hrun as <- <- <- <-. cbn. tauto. }
  destruct (HasErrors (handler (set_Attempt input a σ) d σ).1) eqn:Eerr;
    cbn [negb] in Hrun.
  2:{ injection Hrun as <- <- <- <-. cbn. tauto. }
  apply IH in Hrun.
  - destruct (a =? M); cbn in Hrun; exact Hrun.
  - by destruct (a =? M).
  - destruct (a =? M); cbn; [tauto|].
    destruct Hst as [?|(? & _ & _)]; tauto.
Qed.

(** X7.  A record says what happened.  Its name and handler are those of
    the step.  Succeeded: the recorded messages hold no error-severity
    message and the error field is empty.  Failed: either the recorded
    messages hold an error-severity message and the error field is empty,
    or no handler was registered, and then there are no messages and the
    error field names the handler.  Skipped: the last invocation set the
    skip directive and the error field is its reason.  No other status but
    the empty one occurs. *)
Theorem executeStep_record {World} fuel
    (registry : gmap string (StepHandler World)) r step σ exec σ' calls :
  executeStep fuel registry r step σ = Some (exec, σ', calls) →
  seName exec = Name step ∧
  seHandler exec = GetHandlerName (workflow r) step ∧
  (Status exec = "Succeeded" →
     has_error (seMessages exec) = false ∧ Error exec = "") ∧
  (Status exec = "Failed" →
     (has_error (seMessages exec) = true ∧ Error exec = "") ∨
     (Get registry (GetHandlerName (workflow r) step) = None ∧
      seMessages exec = [] ∧ calls = [] ∧
      Error exec = "handler not found: " +:+ GetHandlerName (workflow r) step)) ∧
  (Status exec = "Skipped" →
     ∃ c, last calls = Some c ∧ skip_set (call_result c) = true ∧
          Error exec = skip_reason (call_result c)) ∧
  (Status exec = "Succeeded" ∨ Status exec = "Failed" ∨
   Status exec = "Skipped" ∨ Status exec = "").
Proof.
  unfold executeStep. cbn zeta.
  destruct (Get registry (GetHandlerName (workflow r) step)) as [handler|] eqn:Hget.
  2:{ intros [= <- <- <-]. cbn. split; [done|]. split; [done|].
      split; [done|]. split; [intros _; by right|]. split; [done|tauto]. }
  destruct (retry_loop _ _ _ _ _ _ _ _ _ _) as [[[[e res] σ1] calls1]|] eqn:Hrun;
    [|done].
  intros [= <- <- <-].
  pose proof (retry_loop_last _ _ _ _ _ _ _ _ _ _ _ _ _ _ Hrun) as Hlast.
  apply retry_loop_outcome in Hrun as (Hn & Hh & Hout); [|done|by left].
  cbn. rewrite Hn, Hh. split; [done|]. split; [done|].
  fold (HasErrors res).
  destruct Hout as [(Hs & Hsk & He)|[(Hs & Hsk & Herr & He)|
                    [(Hs & Hsk & Herr & He)|(Hs & He)]]]; rewrite Hs.
  - split; [done|]. split; [done|]. split; [|tauto]. intros _.
    destruct Hlast as [(_ & -> & _)|(front & c & -> & -> & _)]; [done|].
    exists c. rewrite app_nil_l. by rewrite last_snoc.
  - split; [done|]. split; [done|]. split; [done|tauto].
  - split; [done|]. split; [intros _; by left|]. split; [done|tauto].
  - split; [done|]. split; [done|]. split; [done|tauto].
Qed.

(** The always failing handler: a Failed record with an error message. *)
Lemma executeStep_record_witness :
  ∃ exec σ' calls,
    executeStep 5 sample_registry (sample_runner wf_smoke) step_broken empty_store
      = Some (exec, σ', calls) ∧
    Status exec = "Failed" ∧ has_error (seMessages exec) = true ∧ Error exec = "".
Proof.
  destruct (executeStep 5 sample_registry (sample_runner wf_smoke) step_broken
              empty_store) as [[[exec σ'] calls]|] eqn:Hex;
    [|vm_compute in Hex; discriminate].
  exists exec, σ', calls. split; [reflexivity|].
  destruct (executeStep_record 5 sample_registry (sample_runner wf_smoke)
              step_broken empty_store exec σ' calls Hex)
    as (_ & _ & _ & Hfailed & _).
  assert (Status exec = "Failed") as Hst
    by (vm_compute in Hex; injection Hex as <- _ _; reflexivity).
  split; [exact Hst|].
  destruct (Hfailed Hst) as [[? ?]|(Hnone & _)]; [by split|].
  vm_compute in Hnone. discriminate.
Defined.

(** ** From one step to the next *)

(** X8.  The step executed next sees what the last attempt of the step
    before it asked for: the first input of the second step shows the
    context the last invocation of the first step left, overwritten by that
    invocation's context updates, whether the first step Succeeded, Failed
    or was Skipped. *)
Theorem executeStep_context_flows {World} fuel
    (registry : gmap string (StepHandler World)) r step1 step2 σ
    handler1 handler2 exec1 σ1 calls1 c1 exec2 σ2 calls2 c2 :
  Get registry (GetHandlerName (workflow r) step1) = Some handler1 →
  Get registry (GetHandlerName (workflow r) step2) = Some handler2 →
  executeStep fuel registry r step1 σ = Some (exec1, σ1, calls1) →
  last calls1 = Some c1 →
  executeStep fuel registry r step2 σ1 = Some (exec2, σ2, calls2) →
  calls2 !! 0%nat = Some c2 →
  inVars (call_input c2) = ContextUpdates (call_result c1) ∪ vars (call_store c1) ∧
  (∀ k v, ContextUpdates (call_result c1) !! k = Some v →
          GetVar (call_input c2) k = v) ∧
  (∀ k, ContextUpdates (call_result c1) !! k = None →
        GetVar (call_input c2) k = default VNil (vars (call_store c1) !! k)).
Proof.
  intros Hget1 Hget2 Hex1 Hlast Hex2 Hc2.
  destruct (executeStep_last _ _ _ _ _ _ _ _ _ Hget1 Hex1)
    as [[-> _]|(front & c & e & -> & _ & ->)]; [done|].
  rewrite last_snoc in Hlast. injection Hlast as ->.
  destruct (chained_facts _ _ _ _ _ (executeStep_chained _ _ _ _ _ _ _ _ _ Hget2 Hex2))
    as (_ & Hfirst & _).
  assert (inVars (call_input c2)
          = ContextUpdates (call_result c1) ∪ vars (call_store c1)) as Hv.
  { rewrite (Hfirst c2 Hc2). cbn. by rewrite assign_all_union. }
  split; [done|]. unfold GetVar. rewrite Hv. split.
  - intros k v Hk. by rewrite (lookup_union_Some_l _ _ _ _ Hk).
  - intros k Hk. by rewrite lookup_union_r.
Qed.

(** The check step, then a step of the ok handler: it sees the key checked
    that the third attempt of check set. *)
Lemma executeStep_context_flows_witness :
  ∃ exec1 σ1 calls1 exec2 σ2 calls2 c2,
    executeStep 5 sample_registry (sample_runner wf_smoke) step_check empty_store
      = Some (exec1, σ1, calls1) ∧
    executeStep 5 sample_registry (sample_runner wf_smoke)
      (sample_step "finalize" ["check"; "init"] TemplateFinalize 0) σ1
      = Some (exec2, σ2, calls2) ∧
    calls2 !! 0%nat = Some c2 ∧
    GetVar (call_input c2) "checked" = VBool true.
Proof.
  destruct (executeStep 5 sample_registry (sample_runner wf_smoke) step_check
              empty_store) as [[[exec1 σ1] calls1]|] eqn:Hex1;
    [|vm_compute in Hex1; discriminate].
  destruct (last calls1) as [c1|] eqn:Hlast;
    [|vm_compute in Hex1; injection Hex1 as _ _ <-; discriminate].
  destruct (executeStep 5 sample_registry (sample_runner wf_smoke)
              (sample_step "finalize" ["check"; "init"] TemplateFinalize 0) σ1)
    as [[[exec2 σ2] calls2]|] eqn:Hex2.
  2:{ vm_compute in Hex1. injection Hex1 as _ <- _. vm_compute in Hex2.
      discriminate. }
  destruct (calls2 !! 0%nat) as [c2|] eqn:Hc2.
  2:{ vm_compute in Hex1. injection Hex1 as _ <- _. vm_compute in Hex2.
      injection Hex2 as _ _ <-. discriminate. }
  exists exec1, σ1, calls1, exec2, σ2, calls2, c2.
  split; [reflexivity|]. split; [exact Hex2|]. split; [exact Hc2|].
  destruct (executeStep_context_flows 5 sample_registry (sample_runner wf_smoke)
              step_check (sample_step "finalize" ["check"; "init"] TemplateFinalize 0)
              empty_store handle_flaky handle_ok exec1 σ1 calls1 c1 exec2 σ2
              calls2 c2 eq_refl eq_refl Hex1 Hlast Hex2 Hc2) as (_ & Hset & _).
  apply Hset.
  vm_compute in Hex1. injection Hex1 as _ _ <-. injection Hlast as <-.
  reflexivity.
Defined.

(** ** The run as a whole *)

Lemma executeStep_bound {World} fuel (registry : gmap string (StepHandler World))
    r step σ exec σ' calls :
  executeStep fuel registry r step σ = Some (exec, σ', calls) →
  seName exec = Name step ∧ seHandler exec = GetHandlerName (workflow r) step.
Proof.
  unfold executeStep. cbn zeta.
  destruct (Get registry (GetHandlerName (workflow r) step)) as [handler|];
    [|by intros [= <- <- <-]].
  destruct (retry_loop _ _ _ _ _ _ _ _ _ _) as [[[[e res] σ1] calls1]|] eqn:Hrun;
    [|done].
  intros [= <- <- <-].
  apply retry_loop_outcome in Hrun as (Hn & Hh & _); [|done|by left].
  cbn. by rewrite Hn, Hh.
Qed.

Lemma run_steps_records {World} fuel (registry : gmap string (StepHandler World))
    r steps :
  ∀ todo acc failed σ recs failed' σ',
    run_steps fuel registry r steps todo acc failed σ = Some (recs, failed', σ') →
    ∃ new, recs = acc ++ new ∧
      (length new = length todo ∨
       ∃ e, last new = Some e ∧ Status e = "Failed" ∧
            existsb is_finalize steps = false) ∧
      (∀ i e, new !! i = Some e →
         ∃ s, todo !! i = Some s ∧ seName e = Name s ∧
              seHandler e = GetHandlerName (workflow r) s).
Proof.
  induction todo as [|step todo IH]; intros acc failed σ recs failed' σ' Hrun.
  - injection Hrun as <- <- <-. exists []. rewrite app_nil_r.
    split; [done|]. split; [by left|done].
  - cbn [run_steps] in Hrun.
    destruct (executeStep fuel registry r step σ) as [[[stepExec σ1] cs]|] eqn:Hex;
      [|done].
    destruct (executeStep_bound _ _ _ _ _ _ _ _ Hex) as (Hname & Hhandler).
    assert (∀ new' : list StepExec,
              (∀ i e, new' !! i = Some e →
                 ∃ s, todo !! i = Some s ∧ seName e = Name s ∧
                      seHandler e = GetHandlerName (workflow r) s) →
              ∀ i e, (stepExec :: new') !! i = Some e →
                 ∃ s, (step :: todo) !! i = Some s ∧ seName e = Name s ∧
                      seHandler e = GetHandlerName (workflow r) s) as Hcons.
    { intros new' Hn [|i] e Hi; cbn in Hi |- *; [|by apply Hn].
      injection Hi as <-. eauto. }
    destruct (String.eqb (Status stepExec) "Failed") eqn:Est.
    + apply String.eqb_eq in Est.
      destruct (negb (is_finalize step) && negb (existsb is_finalize steps))
        eqn:Ebr.
      * injection Hrun as <- <- <-. exists [stepExec]. split; [done|].
        apply andb_true_iff in Ebr as [_ Hnf%negb_true_iff].
        split; [right; by exists stepExec|]. apply (Hcons []). by intros [|?] ?.
      * apply IH in Hrun as (new & -> & Hlen & Hrec).
        exists (stepExec :: new). rewrite <- app_assoc. split; [done|].
        split; [|by apply Hcons].
        destruct Hlen as [Hlen|(e & Hlast & He)]; [left; cbn; by rewrite Hlen|].
        right. exists e. split; [|done]. destruct new; [done|exact Hlast].
    + apply IH in Hrun as (new & -> & Hlen & Hrec).
      exists (stepExec :: new). rewrite <- app_assoc. split; [done|].
      split; [|by apply Hcons].
      destruct Hlen as [Hlen|(e & Hlast & He)]; [left; cbn; by rewrite Hlen|].
      right. exists e. split; [|done]. destruct new; [done|exact Hlast].
Qed.

Lemma Run_resolved {World} fuel visit (registry : gmap string (StepHandler World))
    r σ steps res σ' :
  GetExecutionOrder fuel visit (workflow r) = Some (inr steps) →
  Run fuel visit registry r σ = Some (res, σ') →
  ∃ failed,
    run_steps fuel registry r steps steps [] false σ = Some (erSteps res, failed, σ') ∧
    Result res = (if failed then "Failed" else "Succeeded") ∧
    FinalVars res = vars σ' ∧ ErrorMessage res = None.
Proof.
  intros Hord. unfold Run. rewrite Hord.
  destruct (run_steps _ _ _ _ _ _ _ _) as [[[recs failed] σ1]|]; [|done].
  intros [= <- <-]. by exists failed.
Qed.

(** X9.  A workflow that cannot be ordered is not run at all: with a
    dependency on a step that does not exist, whatever the fuel, the
    iteration order, the registry and the handlers, and with a dependency
    cycle among existing steps, [Run] returns the result Error with the
    resolver's error, no record, hence no handler invoked, no final
    variables, and the shared variables as they were. *)
Theorem Run_invalid_workflow {World} fuel visit
    (registry : gmap string (StepHandler World)) r σ :
  (∀ s d, s ∈ Steps (workflow r) → d ∈ Depends s →
     d ∉ Name <$> Steps (workflow r) →
     ∃ res σ' s' d', Run fuel visit registry r σ = Some (res, σ') ∧
       vars σ' = vars σ ∧
       Result res = "Error" ∧ erSteps res = [] ∧ FinalVars res = ∅ ∧
       ErrorMessage res = Some (UnknownDependency (Name s') d') ∧
       s' ∈ Steps (workflow r) ∧ d' ∈ Depends s' ∧
       d' ∉ Name <$> Steps (workflow r)) ∧
  (int_sized (Steps (workflow r)) → valid_visit (workflow r) visit →
   (length (Steps (workflow r)) < fuel)%nat → deps_exist (Steps (workflow r)) →
   ∀ n, tc (depends_on (Steps (workflow r))) n n →
     ∃ res σ', Run fuel visit registry r σ = Some (res, σ') ∧
       vars σ' = vars σ ∧
       Result res = "Error" ∧ erSteps res = [] ∧ FinalVars res = ∅ ∧
       ErrorMessage res = Some DependencyCycle).
Proof.
  split.
  - intros s d Hs Hd Hn.
    destruct (GetExecutionOrder_unknown fuel visit _ s d Hs Hd Hn)
      as (s' & d' & Hr & Hs' & Hd' & Hn').
    unfold Run. rewrite Hr. eexists _, σ, s', d'. split; [done|]. done.
  - intros Hsz Hvis Hfuel Hdeps n Hn.
    unfold Run. rewrite (GetExecutionOrder_cycle fuel visit _ n Hdeps Hn Hsz Hvis Hfuel).
    eexists _, σ. split; [done|]. done.
Qed.

(** X10.  In a run that returns, no step is executed twice and none before
    its dependencies: every record belongs to a step of the workflow, is
    bound to that step's handler name, and is preceded by a record for each
    dependency the step declares. *)
Theorem Run_dependencies_first {World} fuel visit
    (registry : gmap string (StepHandler World)) r σ res σ' :
  int_sized (Steps (workflow r)) → valid_visit (workflow r) visit →
  Run fuel visit registry r σ = Some (res, σ') →
  NoDup (seName <$> erSteps res) ∧
  ∀ i e, erSteps res !! i = Some e →
    ∃ s, s ∈ Steps (workflow r) ∧ seName e = Name s ∧
      seHandler e = GetHandlerName (workflow r) s ∧
      ∀ d, d ∈ Depends s →
        ∃ j e', (j < i)%nat ∧ erSteps res !! j = Some e' ∧ seName e' = d.
Proof.
  intros Hsz Hvis Hrun.
  destruct (GetExecutionOrder fuel visit (workflow r)) as [[err|steps]|] eqn:Hord.
  - unfold Run in Hrun. rewrite Hord in Hrun. injection Hrun as <- <-. cbn.
    split; [constructor|done].
  - destruct (GetExecutionOrder_inr _ _ _ _ Hsz Hvis Hord) as (Hnd & _ & Hperm & Htopo).
    destruct (Run_resolved _ _ _ _ _ _ _ _ Hord Hrun) as (failed & Hsteps & _).
    pose proof (run_steps_spec _ _ _ _ _ _ _ _ _ _ _ (λ s H, H) Hsteps)
      as (new & Hnew & Hnames & _).
    destruct (run_steps_records _ _ _ _ _ _ _ _ _ _ _ Hsteps)
      as (new' & Hnew' & _ & Hrec).
    rewrite app_nil_l in Hnew, Hnew'. subst new'. rewrite Hnew in Hrec |- *.
    clear Hnew. split.
    { rewrite Hnames. apply (sublist_NoDup _ (Name <$> steps)); [|apply sublist_take].
      by rewrite Hperm. }
    intros i e Hi. destruct (Hrec i e Hi) as (s & Hs & Hn & Hh).
    exists s. split; [rewrite <- Hperm; by eapply list_elem_of_lookup_2|].
    split; [done|]. split; [done|]. intros d Hd.
    destruct (Htopo i s d Hs Hd) as (j & t & Hlt & Hj & Ht).
    destruct (new !! j) as [e'|] eqn:Hj'.
    + exists j, e'. split; [done|]. split; [done|].
      destruct (Hrec j e' Hj') as (t' & Ht' & -> & _). congruence.
    + apply lookup_ge_None in Hj'. apply lookup_lt_Some in Hi. lia.
  - unfold Run in Hrun. by rewrite Hord in Hrun.
Qed.

(** A run of the smoke test: the record of finalize comes after those of
    check and init. *)
Lemma Run_dependencies_first_witness :
  ∃ res σ',
    Run 4 ["finalize"; "init"; "check"] sample_registry (sample_runner wf_smoke)
      empty_store = Some (res, σ') ∧
    seName <$> erSteps res = ["init"; "check"; "finalize"] ∧
    NoDup (seName <$> erSteps res).
Proof.
  destruct (Run 4 ["finalize"; "init"; "check"] sample_registry
              (sample_runner wf_smoke) empty_store) as [[res σ']|] eqn:Hrun;
    [|vm_compute in Hrun; discriminate].
  exists res, σ'. split; [reflexivity|].
  destruct (Run_dependencies_first 4 ["finalize"; "init"; "check"] sample_registry
              (sample_runner wf_smoke) empty_store res σ') as [Hnd _].
  - unfold int_sized. vm_compute. discriminate.
  - apply valid_visit_names. by_compute.
  - exact Hrun.
  - split; [|exact Hnd]. vm_compute in Hrun. injection Hrun as <- _. reflexivity.
Defined.



(** X12.  The exit status of [workflow run] is 2 exactly when the order
    could not be resolved, 1 exactly when some executed step ended Failed,
    and 0 exactly when the order was resolved and no executed step ended
    Failed. *)
Theorem exit_status_Run {World} fuel visit
    (registry : gmap string (StepHandler World)) r σ res σ' :
  Run fuel visit registry r σ = Some (res, σ') →
  (exit_status (Result res) = 2 ↔
     ∃ e, GetExecutionOrder fuel visit (workflow r) = Some (inl e)) ∧
  (exit_status (Result res) = 1 ↔ ∃ x, x ∈ erSteps res ∧ Status x = "Failed") ∧
  (exit_status (Result res) = 0 ↔
     (∃ steps, GetExecutionOrder fuel visit (workflow r) = Some (inr steps)) ∧
     ∀ x, x ∈ erSteps res → Status x ≠ "Failed").
Proof.
  intros Hrun.
  destruct (GetExecutionOrder fuel visit (workflow r)) as [[err|steps]|] eqn:Hord.
  - unfold Run in Hrun. rewrite Hord in Hrun. injection Hrun as <- <-. cbn.
    split; [split; eauto|]. split.
    + split; [done|]. intros (x & Hx & _). by apply elem_of_nil in Hx.
    + split; [done|]. by intros [[? [=]] _].
  - destruct (Run_resolved _ _ _ _ _ _ _ _ Hord Hrun) as (failed & Hsteps & Hres & _).
    pose proof (run_steps_spec _ _ _ _ _ _ _ _ _ _ _ (λ s H, H) Hsteps)
      as (new & Hnew & _ & Hfail & _).
    rewrite app_nil_l in Hnew. rewrite Hnew, Hres.
    assert (failed = true ↔ ∃ x, x ∈ new ∧ Status x = "Failed") as Hf.
    { rewrite Hfail. split; [intros [?|?]; done|by right]. }
    destruct failed; cbn.
    + split; [split; [done|by intros [? [=]]]|].
      split; [split; [intros _; by apply Hf|done]|].
      split; [done|]. intros [_ Hno].
      destruct (proj1 Hf eq_refl) as (x & Hx & Hs). by destruct (Hno x Hx).
    + split; [split; [done|by intros [? [=]]]|].
      split; [split; [done|intros Hx; by apply Hf in Hx]|].
      split; [|done]. intros _. split; [eauto|].
      intros x Hx Hs. assert (false = true); [|done]. apply Hf. eauto.
  - unfold Run in Hrun. by rewrite Hord in Hrun.
Qed.

(** The run of the specification's example exits with status 1. *)
Lemma exit_status_Run_witness :
  ∃ res σ',
    Run 4 ["init"; "broken"; "finalize"] sample_registry (sample_runner wf_report)
      empty_store = Some (res, σ') ∧
    exit_status (Result res) = 1 ∧ ∃ x, x ∈ erSteps res ∧ Status x = "Failed".
Proof.
  destruct (Run 4 ["init"; "broken"; "finalize"] sample_registry
              (sample_runner wf_report) empty_store) as [[res σ']|] eqn:Hrun;
    [|vm_compute in Hrun; discriminate].
  exists res, σ'. split; [reflexivity|].
  destruct (exit_status_Run 4 ["init"; "broken"; "finalize"] sample_registry
              (sample_runner wf_report) empty_store res σ' Hrun) as (_ & Hone & _).
  assert (exit_status (Result res) = 1) as H1
    by (vm_compute in Hrun; injection Hrun as <- _; reflexivity).
  split; [exact H1|]. by apply Hone.
Defined.

(** X13.  A workflow without steps, which the loader refuses, is no error
    for the resolver and the runner: the order is empty and the run ends
    Succeeded with no record, the shared variables as they were and
    reported as the final variables. *)
Theorem Run_no_steps {World} fuel visit
    (registry : gmap string (StepHandler World)) r σ :
  Steps (workflow r) = [] → (0 < fuel)%nat →
  GetExecutionOrder fuel visit (workflow r) = Some (inr []) ∧
  ∃ res σ', Run fuel visit registry r σ = Some (res, σ') ∧ vars σ' = vars σ ∧
    Result res = "Succeeded" ∧ erSteps res = [] ∧ FinalVars res = vars σ ∧
    ErrorMessage res = None ∧ exit_status (Result res) = 0.
Proof.
  intros Hnil Hfuel.
  assert (GetExecutionOrder fuel visit (workflow r) = Some (inr [])) as Hord.
  { assert (seed (inDegree empty_graph) visit = []) as Hseed.
    { rewrite seed_filter. induction visit as [|n visit IH]; [done|].
      rewrite filter_cons_False; [done|]. cbn. by rewrite lookup_empty. }
    unfold GetExecutionOrder. rewrite Hnil. cbn zeta. cbn [build foldl validate].
    rewrite Hseed. destruct fuel; [lia|]. done. }
  split; [done|]. unfold Run. rewrite Hord. cbn. eexists _, σ. split; [done|]. done.
Qed.

Lemma Run_no_steps_witness :
  ∃ res σ', Run 1 [] sample_registry (sample_runner (sample_wf [])) empty_store
              = Some (res, σ') ∧ Result res = "Succeeded" ∧ erSteps res = [].
Proof.
  destruct (Run_no_steps 1 [] sample_registry (sample_runner (sample_wf []))
              empty_store) as (_ & res & σ' & Hrun & _ & Hres & Hrec & _).
  - reflexivity.
  - lia.
  - exists res, σ'. split; [exact Hrun|]. split; [exact Hres|exact Hrec].
Defined.

(** ** The resolver, both ways *)

(** X14.  For a workflow held in memory and enough fuel, [GetExecutionOrder]
    returns an order exactly when the step names are pairwise distinct,
    every declared dependency names a step and no step depends on itself,
    directly or through others.  Its errors are the two of the source: an
    unknown dependency, which names a step and a dependency of it that no
    step bears, or the cycle error; a repeated step name, with every
    dependency declared, is reported as a cycle. *)
Theorem GetExecutionOrder_resolves fuel visit w :
  int_sized (Steps w) → valid_visit w visit → (length (Steps w) < fuel)%nat →
  ((∃ order, GetExecutionOrder fuel visit w = Some (inr order)) ↔
     NoDup (Name <$> Steps w) ∧ deps_exist (Steps w) ∧ acyclic (Steps w)) ∧
  (∀ e, GetExecutionOrder fuel visit w = Some (inl e) →
     e = DependencyCycle ∨
     ∃ s d, e = UnknownDependency (Name s) d ∧ s ∈ Steps w ∧ d ∈ Depends s ∧
            d ∉ Name <$> Steps w) ∧
  (deps_exist (Steps w) → ¬ NoDup (Name <$> Steps w) →
     GetExecutionOrder fuel visit w = Some (inl DependencyCycle)).
Proof.
  intros Hsz Hvis Hfuel.
  assert (∀ e, GetExecutionOrder fuel visit w = Some (inl e) →
            e = DependencyCycle ∨
            ∃ s d, e = UnknownDependency (Name s) d ∧ s ∈ Steps w ∧
                   d ∈ Depends s ∧ d ∉ Name <$> Steps w) as Herr.
  { intros e. unfold GetExecutionOrder. cbn zeta.
    destruct (validate _ _) as [e'|] eqn:Hval.
    - intros [= <-]. right.
      apply validate_Some in Hval as (s & d & -> & Hs & Hd & Hnone).
      exists s, d. split; [done|]. split; [done|]. split; [done|].
      by apply stepMap_None.
    - destruct (kahn _ _ _ _ _) as [order|]; [|done].
      destruct (decide _); [|done]. intros [= <-]. by left. }
  split; [|split; [exact Herr|]].
  - split.
    + intros [order Hord].
      destruct (GetExecutionOrder_inr _ _ _ _ Hsz Hvis Hord)
        as (Hnd & Hdeps & Hperm & Htopo).
      split; [done|]. split; [done|]. by eapply topological_acyclic.
    + intros (Hnd & Hdeps & Hac). by apply GetExecutionOrder_complete.
  - intros Hdeps Hdup.
    destruct (GetExecutionOrder_total fuel visit w Hsz Hvis Hfuel) as [[e|order] Hord].
    + destruct (Herr e Hord) as [->|(s & d & _ & Hs & Hd & Hn)]; [done|].
      destruct Hn. by apply (Hdeps s d).
    + destruct (GetExecutionOrder_inr _ _ _ _ Hsz Hvis Hord) as (Hnd & _). done.
Qed.

(** A workflow with a repeated step name: the cycle error. *)
Lemma GetExecutionOrder_resolves_witness :
  GetExecutionOrder 3 ["a"] wf_twins = Some (inl DependencyCycle) ∧
  ¬ ∃ order, GetExecutionOrder 3 ["a"] wf_twins = Some (inr order).
Proof.
  assert (int_sized (Steps wf_twins)) as Hsz by (unfold int_sized; vm_compute; discriminate).
  assert (valid_visit wf_twins ["a"]) as Hvis.
  { split; [by_compute|]. intros n.
    change (Name <$> Steps wf_twins) with ["a"; "a"]. rewrite !elem_of_cons.
    split; [intros [->|H]; [by left|by apply elem_of_nil in H]|].
    intros [->|[->|H]]; [by left|by left|by apply elem_of_nil in H]. }
  assert (length (Steps wf_twins) < 3)%nat as Hfuel by (vm_compute; lia).
  destruct (GetExecutionOrder_resolves 3 ["a"] wf_twins Hsz Hvis Hfuel)
    as (Hiff & _ & Hdup).
  assert (¬ NoDup (Name <$> Steps wf_twins)) as Hnd.
  { change (Name <$> Steps wf_twins) with ["a"; "a"].
    intros H. apply NoDup_cons_1_1 in H. apply H. by left. }
  split.
  - apply Hdup; [|exact Hnd]. apply deps_exist_Forall. by_compute.
  - intros Hex. apply Hiff in Hex as [H _]. by apply Hnd.
Defined.

(** ** The init handler under the engine *)

(** The name the init handler settles on: the string parameter
    [test_name] when there is one and it is not empty. *)
Lemma HandleInit_result {World} (time_Now : World → Z * World) format_RFC3339
    Logger input d σ :
  let given := GetParamString input "test_name" in
  let name := if String.eqb given "" then "default-smoke-test" else given in
  let out := HandleInit time_Now format_RFC3339 Logger input d σ in
  vars out.2 = vars σ ∧
  FlowControl out.1 = ∅ ∧ Output out.1 = ∅ ∧
  msgSeverity <$> Messages out.1 = [SeverityInfo; SeverityInfo; SeverityInfo] ∧
  Text <$> Messages out.1
    = ["Smoke test initialized: " +:+ name; "Task ID: " +:+ TaskID input;
       "Workflow: " +:+ WorkflowName input] ∧
  ∃ start, ContextUpdates out.1
    = <["initialized" := VBool true]>
        (<["start_time" := VStr start]> (<["test_name" := VStr name]> ∅)).
Proof.
  cbn zeta. unfold HandleInit. cbn.
  split; [done|]. split; [done|]. split; [done|]. split; [done|]. split; [done|].
  eexists. reflexivity.
Qed.

(** X15.  The init handler of the smoke test needs one attempt, whatever the
    budget, the context and the parameters: the step is recorded Succeeded
    with three INFO messages, no output and no error; afterwards the context
    holds [initialized] as true, a start time, and under [test_name] the
    string parameter of that name, the step's own before the run-level one,
    or default-smoke-test when it is missing, empty or not a string; every
    other variable is as before. *)
Theorem executeStep_HandleInit {World} (time_Now : World → Z * World)
    format_RFC3339 Logger fuel (registry : gmap string (StepHandler World))
    r step σ :
  Get registry (GetHandlerName (workflow r) step)
    = Some (HandleInit time_Now format_RFC3339 Logger) →
  1 ≤ maxAttempts (workflow r) step →
  let given := match (Params step ∪ params r) !! "test_name" with
               | Some (VStr s) => s
               | _ => ""
               end in
  let name := if String.eqb given "" then "default-smoke-test" else given in
  ∃ exec σ' c,
    executeStep (S fuel) registry r step σ = Some (exec, σ', [c]) ∧
    Status exec = "Succeeded" ∧ Error exec = "" ∧ seOutput exec = ∅ ∧
    msgSeverity <$> seMessages exec = [SeverityInfo; SeverityInfo; SeverityInfo] ∧
    Text <$> seMessages exec
      = ["Smoke test initialized: " +:+ name;
         "Task ID: " +:+ cfgTaskID (config r);
         "Workflow: " +:+ wfName (workflow r)] ∧
    vars σ' !! "test_name" = Some (VStr name) ∧
    vars σ' !! "initialized" = Some (VBool true) ∧
    (∃ start, vars σ' !! "start_time" = Some (VStr start)) ∧
    ∀ k, k ≠ "test_name" → k ≠ "start_time" → k ≠ "initialized" →
         vars σ' !! k = vars σ !! k.
Proof.
  intros Hget Hbudget given name.
  unfold executeStep. rewrite Hget. cbn [retry_loop].
  apply Z.leb_le in Hbudget. rewrite Hbudget.
  set (input := set_Attempt (new_input r step σ) 1 σ).
  destruct (HandleInit_result time_Now format_RFC3339 Logger input (deps r) σ)
    as (Hvars & Hflow & Hout & Hsev & Htext & start & Hupd).
  assert (GetParamString input "test_name" = given) as Hgiven.
  { unfold GetParamString, GetParam, input. cbn [inParams set_Attempt new_input].
    rewrite mergeParams_union. subst given.
    by destruct ((Params step ∪ params r) !! "test_name") as [[]|]. }
  rewrite Hgiven in Htext, Hupd. fold name in Htext, Hupd.
  set (out := HandleInit time_Now format_RFC3339 Logger input (deps r) σ) in *.
  assert (skip_set out.1 = false) as -> by (unfold skip_set; by rewrite Hflow).
  assert (HasErrors out.1 = false) as ->.
  { unfold HasErrors.
    assert (∀ ms, msgSeverity <$> ms = [SeverityInfo; SeverityInfo; SeverityInfo] →
                  has_error ms = false) as Hinfo.
    { intros [|m1 [|m2 [|m3 [|??]]]]; try done. intros [= H1 H2 H3]. cbn.
      by rewrite H1, H2, H3. }
    by apply Hinfo. }
  cbn [negb]. eexists _, _, _. split; [reflexivity|].
  cbn [record_result apply_updates set_Status new_exec Status Error seOutput
       seMessages vars].
  split; [done|]. split; [done|]. split; [done|]. split; [done|]. split; [done|].
  rewrite assign_all_union, Hupd, Hvars.
  split; [|split; [|split]].
  - apply lookup_union_Some_l.
    rewrite lookup_insert_ne, lookup_insert_ne, lookup_insert_eq; done.
  - apply lookup_union_Some_l. by rewrite lookup_insert_eq.
  - exists start. apply lookup_union_Some_l.
    rewrite lookup_insert_ne, lookup_insert_eq; done.
  - intros k H1 H2 H3. rewrite lookup_union_r; [done|].
    rewrite !lookup_insert_ne by done. apply lookup_empty.
Qed.

(** With a run-level test name and a clock: one attempt out of three. *)
Lemma executeStep_HandleInit_witness :
  let r := {| config := config params_runner; workflow := wf_smoke;
              params := params params_runner; deps := deps params_runner |} in
  let step := sample_step "init" [] TemplateInit 2 in
  maxAttempts (workflow r) step = 3 ∧
  ∃ exec σ' c,
    executeStep 1 init_registry r step empty_store = Some (exec, σ', [c]) ∧
    Status exec = "Succeeded" ∧
    vars σ' !! "test_name" = Some (VStr "global") ∧
    vars σ' !! "initialized" = Some (VBool true).
Proof.
  intros r step. split; [reflexivity|].
  destruct (executeStep_HandleInit clock_Now clock_format quiet_Logger 0
              init_registry r step empty_store)
    as (exec & σ' & c & Hex & Hst & _ & _ & _ & _ & Hname & Hinit & _).
  - reflexivity.
  - vm_compute. discriminate.
  - exists exec, σ', c. split; [exact Hex|]. split; [exact Hst|].
    split; [exact Hname|exact Hinit].
Defined.

(** ** Where an order starts *)

Lemma relax_queue l :
  ∀ deg queue, ∃ added,
    (relax l (deg, queue)).2 = queue ++ added ∧ ∀ n, n ∈ added → n ∈ l.
Proof.
  unfold relax. induction l as [|d l IH]; intros deg queue.
  - exists []. by rewrite app_nil_r.
  - cbn [foldl]. unfold relax_one at 2. cbn [fst snd].
    destruct (_ =? 0).
    + destruct (IH (<[d:=wrap (default 0 (deg !! d) - 1)]> deg) (queue ++ [d]))
        as (added & -> & Hin).
      exists (d :: added). rewrite <- app_assoc. split; [done|].
      intros n [->|H]%elem_of_cons; [by left|right; by apply Hin].
    + destruct (IH (<[d:=wrap (default 0 (deg !! d) - 1)]> deg) queue)
        as (added & -> & Hin).
      exists added. split; [done|]. intros n H. right. by apply Hin.
Qed.

Lemma kahn_prefix steps fuel :
  ∀ queue order deg order',
    (∀ n, n ∈ queue → n ∈ Name <$> steps) →
    kahn fuel (build steps) queue order deg = Some order' →
    ∃ rest, Name <$> order' = (Name <$> order) ++ queue ++ rest.
Proof.
  induction fuel as [|fuel IH]; intros queue order deg order' Hq Hk; [done|].
  cbn [kahn] in Hk. destruct queue as [|name rest].
  - injection Hk as <-. exists []. by rewrite !app_nil_r.
  - cbn zeta in Hk.
    destruct (relax_queue (default [] (dependents (build steps) !! name)) deg rest)
      as (added & Hadd & Hin).
    rewrite Hadd in Hk. apply IH in Hk as [rest' Hk].
    + exists (added ++ rest'). rewrite Hk, fmap_app. cbn [fmap list_fmap].
      destruct (name_stepMap steps name) as [s Hs]; [apply Hq; by left|].
      rewrite Hs. cbn [default from_option id].
      apply stepMap_lookup in Hs as [_ ->].
      by rewrite <- !app_assoc.
    + intros n [H|H]%elem_of_app; [apply Hq; by right|].
      eapply dependents_names, Hin, H.
Qed.

Lemma inDegree_root w n :
  NoDup (Name <$> Steps w) →
  inDegree (build (Steps w)) !! n = Some 0 ↔ n ∈ root_names w.
Proof.
  intros Hnd. rewrite inDegree_stepMap. unfold root_names.
  rewrite list_elem_of_fmap. split.
  - destruct (stepMap (build (Steps w)) !! n) as [s|] eqn:Hs; [|done].
    cbn. intros [= Hlen]. apply stepMap_lookup in Hs as [Hs <-].
    exists s. split; [done|]. apply list_elem_of_filter. split; [|done].
    destruct (Depends s); [done|]. cbn in Hlen. lia.
  - intros (s & -> & [Hdep Hs]%list_elem_of_filter).
    rewrite (stepMap_NoDup _ _ Hnd Hs). cbn. by rewrite Hdep.
Qed.

(** X16.  A resolved order begins with the steps that declare no
    dependency, all of them, in the order in which the runtime yields their
    names from the in-degree map; every step that declares a dependency
    comes after them. *)
Theorem GetExecutionOrder_roots_first fuel visit w order :
  int_sized (Steps w) → valid_visit w visit →
  GetExecutionOrder fuel visit w = Some (inr order) →
  ∃ rest, Name <$> order = filter (λ n, n ∈ root_names w) visit ++ rest ∧
          ∀ n, n ∈ rest → n ∉ root_names w.
Proof.
  intros Hsz Hvis Hord.
  destruct (GetExecutionOrder_inr _ _ _ _ Hsz Hvis Hord) as (Hnd & _ & Hperm & _).
  assert (NoDup (Name <$> order)) as Hndo by by rewrite Hperm.
  unfold GetExecutionOrder in Hord. cbn zeta in Hord.
  destruct (validate _ _); [done|].
  destruct (kahn _ _ _ _ _) as [order'|] eqn:Hk; [|done].
  destruct (decide _) as [|Hlen]; [done|]. injection Hord as ->.
  rewrite seed_filter in Hk.
  rewrite (list_filter_iff _ (λ n, n ∈ root_names w)) in Hk
    by (intros n; by apply inDegree_root).
  apply kahn_prefix in Hk as [rest Hk].
  - exists rest. split; [exact Hk|]. intros n Hn Hroot.
    rewrite Hk in Hndo. cbn [fmap list_fmap app] in Hndo.
    apply NoDup_app in Hndo as (_ & Hdis & _).
    apply (Hdis n); [|done]. apply list_elem_of_filter. split; [done|].
    apply Hvis. unfold root_names in Hroot.
    apply list_elem_of_fmap in Hroot as (s & -> & [_ Hs]%list_elem_of_filter).
    apply list_elem_of_fmap. by exists s.
  - intros n [_ Hn]%list_elem_of_filter. by apply Hvis.
Qed.

(** Two independent steps and one after both: the order starts with the two
    as the runtime yields them. *)
Lemma GetExecutionOrder_roots_first_witness :
  let w := sample_wf [sample_step "c" ["a"; "b"] "" 0; sample_step "a" [] "" 0;
                      sample_step "b" [] "" 0] in
  ∃ order rest,
    GetExecutionOrder 4 ["b"; "c"; "a"] w = Some (inr order) ∧
    Name <$> order = ["b"; "a"] ++ rest.
Proof.
  intros w.
  destruct (GetExecutionOrder 4 ["b"; "c"; "a"] w) as [[e|order]|] eqn:Hord;
    [vm_compute in Hord; discriminate| |vm_compute in Hord; discriminate].
  destruct (GetExecutionOrder_roots_first 4 ["b"; "c"; "a"] w order)
    as (rest & Hrest & _).
  - unfold int_sized. vm_compute. discriminate.
  - apply valid_visit_perm; by_compute.
  - exact Hord.
  - exists order, rest. split; [reflexivity|]. exact Hrest.
Defined.

(** ** The smoke test *)

(** A handler whose first outcome neither skips nor reports an error is
    invoked once. *)
Lemma executeStep_first_try {World} fuel
    (registry : gmap string (StepHandler World)) r step σ handler :
  Get registry (GetHandlerName (workflow r) step) = Some handler →
  1 ≤ maxAttempts (workflow r) step →
  let input := set_Attempt (new_input r step σ) 1 σ in
  let out := handler input (deps r) σ in
  skip_set out.1 = false → HasErrors out.1 = false →
  executeStep (S fuel) registry r step σ
  = Some (record_result (set_Status (new_exec (workflow r) step) "Succeeded" "") out.1,
          apply_updates out.1 out.2,
          [{| call_input := input; call_result := out.1; call_store := out.2 |}]).
Proof.
  intros Hget Hbudget input out Hskip Herr.
  unfold executeStep. rewrite Hget. cbn [retry_loop].
  apply Z.leb_le in Hbudget. rewrite Hbudget.
  fold input. fold out. by rewrite Hskip, Herr.
Qed.

(** A handler that leaves the shared variables alone is shown the same
    variables on every attempt. *)
Lemma chained_preserving {World} (handler : StepHandler World) d input :
  (∀ i σ0, vars (handler i d σ0).2 = vars σ0) →
  ∀ calls σ, chained handler d input σ calls →
    ∀ c, c ∈ calls →
      inVars (call_input c) = vars σ ∧ vars (call_store c) = vars σ ∧
      ∃ σ0, handler (call_input c) d σ0 = (call_result c, call_store c).
Proof.
  intros Hpres. induction calls as [|c0 calls IH]; intros σ Hch c Hc.
  - by apply elem_of_nil in Hc.
  - destruct Hch as ([a Ha] & Hrun & Hrest).
    assert (vars (call_store c0) = vars σ) as Hst.
    { specialize (Hpres (call_input c0) σ). by rewrite Hrun in Hpres. }
    apply elem_of_cons in Hc as [->|Hc].
    + split; [by rewrite Ha|]. split; [done|]. by exists σ.
    + destruct (IH _ Hrest c Hc) as (H1 & H2 & H3).
      split; [by rewrite H1|]. split; [by rewrite H2|done].
Qed.

Section SmokeTestProofs.

Context {World : Type}.
Variable time_Now : World → Z * World.
Variable format_RFC3339 : Z → string.
Variable Logger : Deps → string → World → World.
Variable runtime_Version runtime_GOOS runtime_GOARCH : string.
Variable os_Stat_IsDir : string → World → bool * World.
Variable os_Hostname : World → option string * World.
Variable filepath_Join : string → string → string.
Variable json_MarshalIndent : SmokeTestReport → option string.
Variable os_WriteFile : string → string → World → option string * World.
Variable any_map : gmap string Value → Value.
Variable any_report : SmokeTestReport → Value.

Local Abbreviation handle_init := (HandleInit time_Now format_RFC3339 Logger).
Local Abbreviation handle_check :=
  (HandleCheck time_Now Logger runtime_Version runtime_GOOS runtime_GOARCH
     os_Stat_IsDir os_Hostname any_map).
Local Abbreviation handle_finalize :=
  (HandleFinalize time_Now format_RFC3339 Logger filepath_Join json_MarshalIndent
     os_WriteFile any_report).

Lemma HandleCheck_result input d σ :
  let out := handle_check input d σ in
  vars out.2 = vars σ ∧ skip_set out.1 = false ∧ HasErrors out.1 = false ∧
  ContextUpdates out.1
    = <["go_version" := VStr runtime_Version]> {["checks_passed" := VBool true]} ∧
  Output out.1
    = {["runtime" := any_map (<["goarch" := VStr runtime_GOARCH]>
                               (<["goos" := VStr runtime_GOOS]>
                                 {["go_version" := VStr runtime_Version]}))]} ∧
  (3 ≤ length (Messages out.1) ≤ 5)%nat ∧
  (Text <$> Messages out.1) !! 0%nat
    = Some ("Running checks for: " +:+ getStringVar (inVars input) "test_name" "unknown").
Proof.
  assert (match GetVar input "test_name" with VStr s => s | _ => "unknown" end
          = getStringVar (inVars input) "test_name" "unknown") as Hname.
  { unfold GetVar, getStringVar. by destruct (inVars input !! "test_name") as [[]|]. }
  cbn zeta. unfold HandleCheck. rewrite Hname.
  destruct (String.eqb (Workdir d) ""); [|destruct (os_Stat_IsDir _ _).1];
    destruct (os_Hostname _).1; cbn;
    (split; [done|]); (split; [done|]); (split; [done|]); (split; [done|]);
    (split; [done|]); (split; [lia|done]).
Qed.

Lemma HandleFinalize_result input d σ :
  let out := handle_finalize input d σ in
  let passed := getBoolVar (inVars input) "checks_passed" false in
  vars out.2 = vars σ ∧ skip_set out.1 = false ∧
  HasErrors out.1 = negb passed ∧
  ContextUpdates out.1
    = {["final_status" := VStr (if passed then "passed" else "failed")]} ∧
  (1 ≤ length (Messages out.1) ≤ 2)%nat ∧
  (Text <$> Messages out.1) !! 0%nat
    = Some (if passed then "All smoke test checks passed"
            else "Smoke test checks failed").
Proof.
  cbn zeta. unfold HandleFinalize.
  destruct (getBoolVar (inVars input) "checks_passed" false); cbn [negb];
    (destruct (String.eqb (Workdir d) "");
       [|destruct (json_MarshalIndent _); [destruct (os_WriteFile _ _ _).1|]]);
    cbn; (split; [done|]); (split; [done|]); (split; [done|]); (split; [done|]);
    (split; [lia|done]).
Qed.

(** X17.  The check handler of the smoke test needs one attempt, whatever
    the budget, the context and the environment (a working directory that
    is missing and a host name that cannot be read give a warning or
    nothing, never an error): the step is recorded Succeeded with three to
    five messages, none of severity ERROR, the first naming the test by the
    string variable [test_name], else unknown; the output holds the runtime
    facts; afterwards the context holds [checks_passed] as true and the Go
    version, every other variable as before. *)
Theorem executeStep_HandleCheck fuel (registry : gmap string (StepHandler World))
    r step σ :
  Get registry (GetHandlerName (workflow r) step) = Some handle_check →
  1 ≤ maxAttempts (workflow r) step →
  ∃ exec σ' c,
    executeStep (S fuel) registry r step σ = Some (exec, σ', [c]) ∧
    Status exec = "Succeeded" ∧ Error exec = "" ∧
    has_error (seMessages exec) = false ∧
    (3 ≤ length (seMessages exec) ≤ 5)%nat ∧
    (Text <$> seMessages exec) !! 0%nat
      = Some ("Running checks for: " +:+ getStringVar (vars σ) "test_name" "unknown") ∧
    is_Some (seOutput exec !! "runtime") ∧
    vars σ' !! "checks_passed" = Some (VBool true) ∧
    vars σ' !! "go_version" = Some (VStr runtime_Version) ∧
    ∀ k, k ≠ "checks_passed" → k ≠ "go_version" → vars σ' !! k = vars σ !! k.
Proof.
  intros Hget Hbudget.
  set (input := set_Attempt (new_input r step σ) 1 σ).
  destruct (HandleCheck_result input (deps r) σ)
    as (Hvars & Hskip & Herr & Hupd & Hout & Hlen & Hfirst).
  rewrite (executeStep_first_try fuel registry r step σ _ Hget Hbudget Hskip Herr).
  fold input. eexists _, _, _. split; [reflexivity|].
  cbn [record_result apply_updates set_Status new_exec Status Error seOutput
       seMessages vars].
  split; [done|]. split; [done|]. split; [exact Herr|]. split; [exact Hlen|].
  split; [exact Hfirst|]. rewrite Hout, assign_all_union, Hupd, Hvars.
  split; [by rewrite lookup_singleton_eq|]. split; [|split].
  - apply lookup_union_Some_l. by rewrite lookup_insert_ne, lookup_singleton_eq.
  - apply lookup_union_Some_l. by rewrite lookup_insert_eq.
  - intros k H1 H2. rewrite lookup_union_r; [done|].
    by rewrite lookup_insert_ne, lookup_singleton_ne.
Qed.

(** X18.  The finalize handler of the smoke test looks at one thing, the
    variable [checks_passed] as the step finds it.  When it is the boolean
    true the step is recorded Succeeded after one invocation and the
    context gets [final_status] passed.  Otherwise, absent or anything
    else, every attempt fails alike: the whole budget is used up, the step
    is recorded Failed and [final_status] is failed.  In both cases a
    report that cannot be encoded or written is no error, and no other
    variable changes. *)
Theorem executeStep_HandleFinalize fuel (registry : gmap string (StepHandler World))
    r step σ :
  Get registry (GetHandlerName (workflow r) step) = Some handle_finalize →
  1 ≤ maxAttempts (workflow r) step < max_int →
  (Z.to_nat (maxAttempts (workflow r) step) < fuel)%nat →
  ∃ exec σ' calls,
    executeStep fuel registry r step σ = Some (exec, σ', calls) ∧
    (getBoolVar (vars σ) "checks_passed" false = true →
       length calls = 1%nat ∧ Status exec = "Succeeded" ∧
       has_error (seMessages exec) = false ∧
       vars σ' !! "final_status" = Some (VStr "passed")) ∧
    (getBoolVar (vars σ) "checks_passed" false = false →
       Z.of_nat (length calls) = maxAttempts (workflow r) step ∧
       Status exec = "Failed" ∧ has_error (seMessages exec) = true ∧
       vars σ' !! "final_status" = Some (VStr "failed")) ∧
    ∀ k, k ≠ "final_status" → vars σ' !! k = vars σ !! k.
Proof.
  intros Hget Hbudget Hfuel.
  destruct (executeStep_total fuel registry r step σ (proj2 Hbudget) Hfuel)
    as [[[exec σ'] calls] Hex].
  exists exec, σ', calls. split; [exact Hex|].
  pose proof (chained_preserving handle_finalize (deps r) (new_input r step σ)
                (λ i σ0, proj1 (HandleFinalize_result i (deps r) σ0)) calls σ
                (executeStep_chained _ _ _ _ _ _ _ _ _ Hget Hex)) as Hcalls.
  destruct (executeStep_trace _ _ _ _ _ _ _ _ _ Hget Hbudget Hex)
    as (front & c & Hcs & Hfront & _ & _ & Hexit).
  destruct (executeStep_last _ _ _ _ _ _ _ _ _ Hget Hex)
    as [[Hnil _]|(front' & c' & e & Hcs' & Hexec & Hσ')].
  { rewrite Hnil in Hcs. by destruct front. }
  rewrite Hcs in Hcs'. apply app_inj_tail in Hcs' as [<- <-].
  assert (∀ x, x ∈ calls →
            skip_set (call_result x) = false ∧
            HasErrors (call_result x)
              = negb (getBoolVar (vars σ) "checks_passed" false) ∧
            ContextUpdates (call_result x)
              = {["final_status" :=
                    VStr (if getBoolVar (vars σ) "checks_passed" false
                          then "passed" else "failed")]} ∧
            vars (call_store x) = vars σ) as Hall.
  { intros x Hx. destruct (Hcalls x Hx) as (Hin & Hst & σ0 & Hrun).
    destruct (HandleFinalize_result (call_input x) (deps r) σ0)
      as (_ & Hskip & Herr & Hupd & _).
    rewrite Hrun, Hin in *. done. }
  assert (c ∈ calls) as Hc by (rewrite Hcs; apply elem_of_app; right; by left).
  destruct (Hall c Hc) as (Hskip & Herr & Hupd & Hst).
  assert (has_error (seMessages exec) = HasErrors (call_result c)) as Hmsgs
    by by rewrite Hexec.
  assert (∀ k v, ContextUpdates (call_result c) = {[ "final_status" := v ]} →
            vars σ' !! "final_status" = Some v ∧
            (k ≠ "final_status" → vars σ' !! k = vars σ !! k)) as Hvars.
  { intros k v Hv. rewrite Hσ'. cbn [apply_updates vars].
    rewrite assign_all_union, Hv, Hst. split.
    - apply lookup_union_Some_l. by rewrite lookup_singleton_eq.
    - intros Hk. rewrite lookup_union_r; [done|]. by rewrite lookup_singleton_ne. }
  split; [|split].
  - intros Hpass. rewrite Hpass in *. cbn [negb] in *.
    destruct front as [|c0 front].
    + rewrite Hcs. split; [done|].
      destruct Hexit as [[? _]|[(_ & _ & ->)|[[_ ?] _]]]; [congruence| |congruence].
      split; [done|]. split; [by rewrite Hmsgs|].
      by apply (Hvars "final_status").
    + apply Forall_cons in Hfront as [[_ Hr] _].
      assert (c0 ∈ calls) as Hc0 by (rewrite Hcs; by left).
      destruct (Hall c0 Hc0) as (_ & Herr0 & _). congruence.
  - intros Hfail. rewrite Hfail in *. cbn [negb] in *.
    destruct Hexit as [[? _]|[(_ & ? & _)|(_ & Hlen & ->)]]; [congruence..|].
    split; [done|]. split; [done|]. split; [by rewrite Hmsgs|].
    by apply (Hvars "final_status").
  - intros k Hk. by apply (Hvars k _ Hupd).
Qed.

Lemma HandleInit_quiet input d σ :
  let out := handle_init input d σ in
  skip_set out.1 = false ∧ HasErrors out.1 = false ∧
  ContextUpdates out.1 !! "initialized" = Some (VBool true) ∧
  ContextUpdates out.1 !! "checks_passed" = None ∧
  ContextUpdates out.1 !! "final_status" = None.
Proof. cbn zeta. unfold HandleInit. cbn. done. Qed.

Lemma filter_only (x : string) (l : list string) :
  NoDup l → x ∈ l → filter (λ n, n ∈ [x]) l = [x].
Proof.
  induction 1 as [|y l Hy Hnd IH]; [by intros ?%elem_of_nil|].
  intros [->|Hx]%elem_of_cons.
  - rewrite filter_cons_True by by left. f_equal.
    clear IH. induction l as [|z l IH]; [done|].
    apply not_elem_of_cons in Hy as [Hne Hy]. apply NoDup_cons in Hnd as [_ Hnd].
    rewrite filter_cons_False; [by apply IH|].
    intros ?%list_elem_of_singleton. by apply Hne.
  - rewrite filter_cons_False; [by apply IH|].
    intros ->%list_elem_of_singleton. by apply Hy.
Qed.

(** X19.  The smoke test passes in every environment.  For the workflow
    init, check after init, finalize after check, with the three handlers
    of the package bound to its steps and at least one attempt each:
    whatever the parameters, the retry counts, the templates, the variables
    the run starts with, the clock, the file system and the order in which
    the runtime ranges over the in-degree map, [Run] executes init, check
    and finalize in this order, one attempt each, records all three
    Succeeded and returns Succeeded, exit status 0, leaving [initialized]
    and [checks_passed] true and [final_status] passed. *)
Theorem Run_smoke_test fuel visit (registry : gmap string (StepHandler World))
    r σ t1 t2 t3 p1 p2 p3 n1 n2 n3 :
  let init := {| Name := "init"; Depends := []; Template := t1; Params := p1;
                 Retries := n1 |} in
  let check := {| Name := "check"; Depends := ["init"]; Template := t2;
                  Params := p2; Retries := n2 |} in
  let finalize := {| Name := "finalize"; Depends := ["check"]; Template := t3;
                     Params := p3; Retries := n3 |} in
  Steps (workflow r) = [init; check; finalize] →
  Get registry (GetHandlerName (workflow r) init) = Some handle_init →
  Get registry (GetHandlerName (workflow r) check) = Some handle_check →
  Get registry (GetHandlerName (workflow r) finalize) = Some handle_finalize →
  1 ≤ maxAttempts (workflow r) init → 1 ≤ maxAttempts (workflow r) check →
  1 ≤ maxAttempts (workflow r) finalize →
  valid_visit (workflow r) visit → (3 < fuel)%nat →
  ∃ res σ',
    Run fuel visit registry r σ = Some (res, σ') ∧
    Result res = "Succeeded" ∧ exit_status (Result res) = 0 ∧
    (λ e, (seName e, Status e)) <$> erSteps res
      = [("init", "Succeeded"); ("check", "Succeeded"); ("finalize", "Succeeded")] ∧
    FinalVars res = vars σ' ∧
    vars σ' !! "initialized" = Some (VBool true) ∧
    vars σ' !! "checks_passed" = Some (VBool true) ∧
    vars σ' !! "final_status" = Some (VStr "passed").
Proof.
  intros init check finalize Hsteps Hget1 Hget2 Hget3 Hb1 Hb2 Hb3 Hvis Hfuel.
  assert (GetExecutionOrder fuel visit (workflow r)
          = Some (inr [init; check; finalize])) as Hord.
  { assert (NoDup (Name <$> Steps (workflow r))) as Hnd
      by (rewrite Hsteps; by_compute).
    assert (seed (inDegree (build (Steps (workflow r)))) visit = ["init"]) as Hseed.
    { rewrite seed_filter.
      rewrite (list_filter_iff _ (λ n, n ∈ root_names (workflow r)))
        by (intros n; by apply inDegree_root).
      assert (root_names (workflow r) = ["init"]) as ->
        by (unfold root_names; by rewrite Hsteps).
      apply filter_only; [apply Hvis|]. apply Hvis. rewrite Hsteps. by left. }
    unfold GetExecutionOrder. cbn zeta. rewrite Hseed, Hsteps.
    destruct fuel as [|[|[|[|fuel]]]]; [lia..|]. by vm_compute. }
  destruct fuel as [|fuel]; [lia|].
  unfold Run. rewrite Hord. cbn [run_steps].
  set (input1 := set_Attempt (new_input r init σ) 1 σ).
  destruct (HandleInit_quiet input1 (deps r) σ) as (Hs1 & He1 & Hi1 & Hc1 & Hf1).
  destruct (HandleInit_result time_Now format_RFC3339 Logger input1 (deps r) σ)
    as (Hv1 & _).
  rewrite (executeStep_first_try fuel registry r init σ _ Hget1 Hb1 Hs1 He1).
  fold input1. set (out1 := handle_init input1 (deps r) σ) in *.
  cbn [record_result set_Status Status String.eqb Ascii.eqb Bool.eqb].
  set (σ1 := apply_updates out1.1 out1.2).
  set (input2 := set_Attempt (new_input r check σ1) 1 σ1).
  destruct (HandleCheck_result input2 (deps r) σ1)
    as (Hv2 & Hs2 & He2 & Hu2 & _).
  rewrite (executeStep_first_try fuel registry r check σ1 _ Hget2 Hb2 Hs2 He2).
  fold input2. set (out2 := handle_check input2 (deps r) σ1) in *.
  cbn [record_result set_Status Status String.eqb Ascii.eqb Bool.eqb].
  set (σ2 := apply_updates out2.1 out2.2).
  assert (vars σ2 !! "checks_passed" = Some (VBool true)) as Hc2.
  { unfold σ2. cbn [apply_updates vars]. rewrite assign_all_union, Hu2.
    apply lookup_union_Some_l. by rewrite lookup_insert_ne, lookup_singleton_eq. }
  assert (vars σ2 !! "initialized" = Some (VBool true)) as Hi2.
  { unfold σ2. cbn [apply_updates vars]. rewrite assign_all_union, Hu2, Hv2.
    rewrite lookup_union_r by by rewrite lookup_insert_ne, lookup_singleton_ne.
    unfold σ1. cbn [apply_updates vars]. rewrite assign_all_union.
    by apply lookup_union_Some_l. }
  set (input3 := set_Attempt (new_input r finalize σ2) 1 σ2).
  destruct (HandleFinalize_result input3 (deps r) σ2)
    as (Hv3 & Hs3 & He3 & Hu3 & _).
  assert (getBoolVar (inVars input3) "checks_passed" false = true) as Hpass
    by (unfold getBoolVar, input3; cbn [set_Attempt inVars]; by rewrite Hc2).
  rewrite Hpass in He3, Hu3. cbn [negb] in He3.
  rewrite (executeStep_first_try fuel registry r finalize σ2 _ Hget3 Hb3 Hs3 He3).
  fold input3. set (out3 := handle_finalize input3 (deps r) σ2) in *.
  cbn [record_result set_Status Status String.eqb Ascii.eqb Bool.eqb].
  eexists _, _. split; [reflexivity|]. cbn [Result erSteps FinalVars].
  split; [done|]. split; [done|]. split; [done|]. split; [done|].
  cbn [apply_updates vars]. rewrite assign_all_union, Hu3, Hv3.
  split; [|split].
  - by rewrite lookup_union_r by by rewrite lookup_singleton_ne.
  - by rewrite lookup_union_r by by rewrite lookup_singleton_ne.
  - apply lookup_union_Some_l. by rewrite lookup_singleton_eq.
Qed.

End SmokeTestProofs.

(** With the ok directory, no host name and a report that cannot be
    written: one attempt of three. *)
Lemma executeStep_HandleCheck_witness :
  1 ≤ maxAttempts wf_smoke_chain step_check ∧
  ∃ exec σ' c,
    executeStep 1 smoke_registry (sample_runner wf_smoke_chain) step_check
      empty_store = Some (exec, σ', [c]) ∧
    Status exec = "Succeeded" ∧ vars σ' !! "checks_passed" = Some (VBool true).
Proof.
  assert (1 ≤ maxAttempts wf_smoke_chain step_check) as Hb
    by (vm_compute; discriminate).
  split; [exact Hb|].
  destruct (executeStep_HandleCheck clock_Now quiet_Logger "go1.22" "linux" "amd64"
              stat_found hostname_fails boxed_map 0 smoke_registry
              (sample_runner wf_smoke_chain) step_check empty_store eq_refl Hb)
    as (exec & σ' & c & Hex & Hst & _ & _ & _ & _ & _ & Hc & _).
  exists exec, σ', c. split; [exact Hex|]. split; [exact Hst|exact Hc].
Defined.

(** Finalize run on its own, before any check: both attempts fail. *)
Lemma executeStep_HandleFinalize_witness :
  let step := sample_step "finalize" ["check"] TemplateFinalize 1 in
  maxAttempts wf_smoke_chain step = 2 ∧
  ∃ exec σ' calls,
    executeStep 3 smoke_registry (sample_runner wf_smoke_chain) step empty_store
      = Some (exec, σ', calls) ∧
    length calls = 2%nat ∧ Status exec = "Failed" ∧
    vars σ' !! "final_status" = Some (VStr "failed").
Proof.
  intros step. split; [reflexivity|].
  destruct (executeStep_HandleFinalize clock_Now clock_format quiet_Logger join_slash
              marshal_braces write_denied boxed_report 3 smoke_registry
              (sample_runner wf_smoke_chain) step empty_store)
    as (exec & σ' & calls & Hex & _ & Hfail & _).
  - reflexivity.
  - vm_compute. split; [discriminate|reflexivity].
  - vm_compute. lia.
  - destruct (Hfail eq_refl) as (Hlen & Hst & _ & Hfin).
    exists exec, σ', calls. split; [exact Hex|].
    split; [|split; [exact Hst|exact Hfin]].
    change (maxAttempts (workflow (sample_runner wf_smoke_chain)) step) with 2 in Hlen.
    lia.
Defined.

(** The smoke test run with context left over from an earlier run. *)
Lemma Run_smoke_test_witness :
  ∃ res σ',
    Run 4 ["finalize"; "check"; "init"] smoke_registry (sample_runner wf_smoke_chain)
      {| vars := {["checks_passed" := VBool false]}; world := 0%nat |}
      = Some (res, σ') ∧
    Result res = "Succeeded" ∧
    vars σ' !! "checks_passed" = Some (VBool true) ∧
    vars σ' !! "final_status" = Some (VStr "passed").
Proof.
  destruct (Run_smoke_test clock_Now clock_format quiet_Logger "go1.22" "linux"
              "amd64" stat_found hostname_fails join_slash marshal_braces
              write_denied boxed_map boxed_report 4 ["finalize"; "check"; "init"]
              smoke_registry (sample_runner wf_smoke_chain)
              {| vars := {["checks_passed" := VBool false]}; world := 0%nat |}
              TemplateInit TemplateAction TemplateFinalize ∅ ∅ ∅ 0 2 0)
    as (res & σ' & Hrun & Hres & _ & _ & _ & _ & Hc & Hf).
  - reflexivity.
  - reflexivity.
  - reflexivity.
  - reflexivity.
  - vm_compute. discriminate.
  - vm_compute. discriminate.
  - vm_compute. discriminate.
  - apply valid_visit_perm; by_compute.
  - lia.
  - exists res, σ'. split; [exact Hrun|]. split; [exact Hres|].
    split; [exact Hc|exact Hf].
Defined.
